(** * WiggleTools set comparisons: Welch T-test and Mann-Whitney U reducers

    A shallow embedding of [src/setComparisons.c].

    - A C [int] is a [Z] in the 32-bit signed range; arithmetic on it wraps
      around ([CInt.wrap]), division truncates towards zero.
    - A C [double] is a real number ([R]): the arithmetic of the reducers is
      read as exact real arithmetic, and rounding, infinities and NaN are
      outside of it.  Where rounding decides what the T-test does, the
      T-test is modelled a second time over an arithmetic that is left open
      ([Floating]), of which IEEE binary64 is an instance.
    - The [Multiset] (window synchroniser), the generic iterator plumbing
      ([pop], [newWiggleIterator]), libc's [qsort] and [erf] and GSL's
      [gsl_cdf_tdist_Q] are not part of [setComparisons.c].  The first two
      are modelled from their contract, the others are parameters. *)

From Stdlib Require Import String ZArith List Bool Reals Lra Lia Psatz.
From Stdlib Require Import Permutation Sorted.
From Stdlib Require Floats.
Import ListNotations.

(** ** C integers *)

Module CInt.

Definition INT_MAX : Z := 2147483647.
Definition INT_MIN : Z := -2147483648.

Definition in_range (z : Z) : Prop := (INT_MIN <= z <= INT_MAX)%Z.

(** Two's complement wrap-around to 32 bits. *)
Definition wrap (z : Z) : Z := ((z + 2 ^ 31) mod 2 ^ 32 - 2 ^ 31)%Z.

Definition add (a b : Z) : Z := wrap (a + b).
Definition sub (a b : Z) : Z := wrap (a - b).
Definition mul (a b : Z) : Z := wrap (a * b).
(** [a / b] on ints truncates towards zero. *)
Definition div (a b : Z) : Z := wrap (Z.quot a b).

End CInt.

(** ** C doubles, read as reals *)

Module Double.

Definition eqb (x y : R) : bool := if Req_EM_T x y then true else false.
Definition ltb (x y : R) : bool := if Rlt_dec x y then true else false.
Definition gtb (x y : R) : bool := ltb y x.

End Double.

(** ** The window synchroniser ([Multiset], from [multiSet.h]) *)

(** Modelled from the spec: the Window Synchronizer lives in [multiSet.c].
    One [Window] is what the reducers can read of it while it
    stands on an aligned position: the window triple, the per-group flags
    [multi->inplay[g]], the per-replicate flags [multi->multis[g]->inplay[i]]
    and the values [multi->values[g][i]]. *)
Record Window : Type := {
  w_chrom : string;
  w_start : Z;
  w_finish : Z;
  w_inplay0 : bool;
  w_inplay1 : bool;
  w_multis_inplay0 : list bool;
  w_multis_inplay1 : list bool;
  w_values0 : list R;
  w_values1 : list R
}.

(** Modelled from the spec: [count] is the number of groups
    ([multi->count]), [multis_count0] and [multis_count1] the fixed replicate
    counts [multi->multis[g]->count], and [windows] the positions the
    synchroniser still has to offer, the current one first; it is [done]
    when none is left. *)
Record Multiset : Type := {
  count : Z;
  multis_count0 : Z;
  multis_count1 : Z;
  windows : list Window
}.

Definition multiset_done (multi : Multiset) : bool :=
  match windows multi with
  | [] => true
  | _ :: _ => false
  end.

(** Modelled from the spec: [advance()] moves to the next position. *)
Definition popMultiset (multi : Multiset) : Multiset :=
  {| count := count multi;
     multis_count0 := multis_count0 multi;
     multis_count1 := multis_count1 multi;
     windows := tl (windows multi) |}.

Definition with_windows (multi : Multiset) (ws : list Window) : Multiset :=
  {| count := count multi;
     multis_count0 := multis_count0 multi;
     multis_count1 := multis_count1 multi;
     windows := ws |}.

(** The triple a record shows of a window. *)
Definition Region : Type := (string * Z * Z)%type.

Definition window_region (w : Window) : Region :=
  (w_chrom w, w_start w, w_finish w).

(** Both group flags are up: the window is a qualifying one. *)
Definition qualifying (w : Window) : bool := w_inplay0 w && w_inplay1 w.

(** Number of replicates in play. *)
Definition inplay_count (flags : list bool) : nat :=
  length (filter (fun b : bool => b) flags).

(** Each group has a replicate in play. *)
Definition has_replicates_in_play (w : Window) : Prop :=
  (1 <= inplay_count (w_multis_inplay0 w))%nat /\
  (1 <= inplay_count (w_multis_inplay1 w))%nat.

(** Modelled from the spec: the synchroniser's contract on one window, for
    groups of [n1] and [n2] replicates.  The replicate arrays have [n1] and
    [n2] entries, and a group's flag is up exactly when one of its replicates
    is in play. *)
Definition wf_window (n1 n2 : Z) (w : Window) : Prop :=
  Z.of_nat (length (w_multis_inplay0 w)) = n1 /\
  Z.of_nat (length (w_values0 w)) = n1 /\
  Z.of_nat (length (w_multis_inplay1 w)) = n2 /\
  Z.of_nat (length (w_values1 w)) = n2 /\
  w_inplay0 w = existsb (fun b : bool => b) (w_multis_inplay0 w) /\
  w_inplay1 w = existsb (fun b : bool => b) (w_multis_inplay1 w).

(** ** The iterator a reducer is wrapped in ([WiggleIterator]) *)

Record WiggleIterator (D : Type) : Type := {
  done : bool;
  chrom : string;
  start : Z;
  finish : Z;
  value : R;
  data : D
}.

Arguments done {D} _.
Arguments chrom {D} _.
Arguments start {D} _.
Arguments finish {D} _.
Arguments value {D} _.
Arguments data {D} _.

Definition set_done {D} (wi : WiggleIterator D) : WiggleIterator D :=
  {| done := true; chrom := chrom wi; start := start wi; finish := finish wi;
     value := value wi; data := data wi |}.

Definition set_data {D} (wi : WiggleIterator D) (d : D) : WiggleIterator D :=
  {| done := done wi; chrom := chrom wi; start := start wi; finish := finish wi;
     value := value wi; data := d |}.

Definition set_region {D} (wi : WiggleIterator D) (w : Window) : WiggleIterator D :=
  {| done := done wi; chrom := w_chrom w; start := w_start w; finish := w_finish w;
     value := value wi; data := data wi |}.

Definition set_value {D} (wi : WiggleIterator D) (v : R) : WiggleIterator D :=
  {| done := done wi; chrom := chrom wi; start := start wi; finish := finish wi;
     value := v; data := data wi |}.

Definition region {D} (wi : WiggleIterator D) : Region :=
  (chrom wi, start wi, finish wi).

(** What a consumer reads off the iterator after a pull. *)
Definition Record_ : Type := (Region * R)%type.

Definition current {D} (wi : WiggleIterator D) : Record_ := (region wi, value wi).

(** The loop both reducers open with:
<<
  while (!multi->inplay[0] || !multi->inplay[1]) {
    popMultiset(multi);
    if (multi->done) { wi->done = true; return true; }
  }
>>
    run on a synchroniser that is not done.  The result is what is left of
    the windows when the loop is left: nothing when the input ran out. *)
Fixpoint skip_windows (ws : list Window) : list Window :=
  match ws with
  | [] => []
  | w :: ws' =>
      if negb (w_inplay0 w) || negb (w_inplay1 w) then skip_windows ws' else ws
  end.

(** Modelled from the spec: the generic pull of the Reduction Wrapper
    ([pop] of [wiggleIterator.c]) hands over to the reducer's own pop
    function unless the iterator is done.  A pop function that ran out of
    fuel gives [None]. *)
Definition pop {D} (popFunction : WiggleIterator D -> option (WiggleIterator D))
    (wi : WiggleIterator D) : option (WiggleIterator D) :=
  if done wi then Some wi else popFunction wi.

(** Modelled from the spec: a consumer pulls until the iterator is done and
    reads one record after each pull.  [pulls popFunction n wi] are the
    records of the first [n] pulls. *)
Fixpoint pulls {D} (popFunction : WiggleIterator D -> option (WiggleIterator D))
    (n : nat) (wi : WiggleIterator D) : list Record_ :=
  match n with
  | O => []
  | S n' =>
      match pop popFunction wi with
      | None => []
      | Some wi' =>
          if done wi' then [] else current wi' :: pulls popFunction n' wi'
      end
  end.

(** Modelled from the spec: [newWiggleIterator] of [wiggleIterator.c] binds
    the reducer's data to its pop and seek functions.  The iterator it hands
    out is read here before its first pull. *)
Definition newWiggleIterator {D} (d : D) : WiggleIterator D :=
  {| done := false; chrom := EmptyString; start := 0; finish := 0;
     value := 1; data := d |}.

(** A constructor either ends the process ([exit(1)] after a message) or
    hands out the iterator. *)
Inductive Constructed (D : Type) : Type :=
| Fatal (message : string)
| Ready (iterator : WiggleIterator D).

Arguments Fatal {D} _.
Arguments Ready {D} _.

(** ** T-test *)

Record SetComparisonData : Type := { multi : Multiset }.

(** The two accumulation loops of [TTestReductionPop2]:
<<
  for (index = 0; index < count; index++)
    if (inplay[index]) { sum += values[index]; sumSq += values[index] * values[index]; }
>>
    The result is the pair [(sum, sumSq)]. *)
Definition accumulate_step (inplay : list bool) (values : list R)
    (acc : R * R) (index : nat) : R * R :=
  if nth index inplay false
  then (fst acc + nth index values 0,
        snd acc + nth index values 0 * nth index values 0)%R
  else acc.

Definition accumulate (count : Z) (inplay : list bool) (values : list R) : R * R :=
  fold_left (accumulate_step inplay values) (seq 0 (Z.to_nat count)) (0%R, 0%R).

(** [count * count * (count - 1)], computed on ints before it divides a
    double. *)
Definition nu_denominator (count : Z) : Z :=
  CInt.mul (CInt.mul count count) (CInt.sub count 1).

(** The degrees of freedom as line 129 computes them.  On the reals a
    quotient by zero is zero, where a double is an infinity or NaN: a group
    of one replicate, whose int product is zero, is treated in [Floating]. *)
Definition nu_of (var1 var2 : R) (count1 count2 : Z) : R :=
  ((var1 / IZR count1 + var2 / IZR count2) * (var1 / IZR count1 + var2 / IZR count2)
   / ((var1 * var1) / IZR (nu_denominator count1)
      + (var2 * var2) / IZR (nu_denominator count2)))%R.

(** The statistic as lines 122 to 125 compute it. *)
Definition t_of (mean1 mean2 var1 var2 : R) (count1 count2 : Z) : R :=
  let t := ((mean1 - mean2) / sqrt (var1 / IZR count1 + var2 / IZR count2))%R in
  if Double.ltb t 0 then (- t)%R else t.

Section TTest.

(** GSL's upper tail of Student's t distribution. *)
Variable gsl_cdf_tdist_Q : R -> R -> R.

(** [TTestReductionPop2] leaves through a bare [return;] on line 104: what
    its caller reads as the result there is not determined by the code.  It
    is whatever [indeterminate] makes of the state the step leaves behind. *)
Variable indeterminate : WiggleIterator SetComparisonData -> bool.

(** The step and the pull call each other: line 103 pulls again from inside
    the step.  [fuel] bounds the depth of these calls, and [None] says that
    it ran out; [TTestReductionPop_total] below shows that twice the number
    of windows left, and two, is enough. *)

Fixpoint TTestReductionPop2 (fuel : nat) (wi : WiggleIterator SetComparisonData)
    {struct fuel} : option (bool * WiggleIterator SetComparisonData) :=
  match fuel with
  | O => None
  | S fuel' =>
      if done wi then Some (true, wi)
      else if multiset_done (multi (data wi)) then Some (true, set_done wi)
      else
        let m := multi (data wi) in
        match skip_windows (windows m) with
        | [] =>
            Some (true, set_done (set_data wi {| multi := with_windows m [] |}))
        | w :: ws =>
            let m := with_windows m (w :: ws) in
            let wi := set_region wi w in
            let count1 := multis_count0 m in
            let count2 := multis_count1 m in
            let (sum1, sumSq1) := accumulate (multis_count0 m) (w_multis_inplay0 w) (w_values0 w) in
            let (sum2, sumSq2) := accumulate (multis_count1 m) (w_multis_inplay1 w) (w_values1 w) in
            if (count1 =? 0)%Z || (count2 =? 0)%Z then
              match pop (TTestReductionPop fuel')
                        (set_data wi {| multi := popMultiset m |}) with
              | None => None
              | Some wi' => Some (indeterminate wi', wi')
              end
            else
              let mean1 := (sum1 / IZR count1)%R in
              let mean2 := (sum2 / IZR count2)%R in
              let meanSq1 := (sumSq1 / IZR count1)%R in
              let meanSq2 := (sumSq2 / IZR count2)%R in
              let var1 := (meanSq1 - mean1 * mean1)%R in
              let var2 := (meanSq2 - mean2 * mean2)%R in
              if Double.eqb (var1 + var2) 0 then
                Some (false, set_data wi {| multi := popMultiset m |})
              else
                let t := t_of mean1 mean2 var1 var2 count1 count2 in
                let nu := nu_of var1 var2 count1 count2 in
                Some (true,
                      set_data (set_value wi (2 * gsl_cdf_tdist_Q t nu)%R)
                               {| multi := popMultiset m |})
        end
  end

with TTestReductionPop (fuel : nat) (wi : WiggleIterator SetComparisonData)
    {struct fuel} : option (WiggleIterator SetComparisonData) :=
  match fuel with
  | O => None
  | S fuel' =>
      if done wi then Some wi
      else
        match TTestReductionPop2 fuel' wi with
        | None => None
        | Some (true, wi') => Some wi'
        | Some (false, wi') => TTestReductionPop fuel' wi'
        end
  end.

End TTest.

Definition TTestReduction (multi : Multiset) : Constructed SetComparisonData :=
  if negb (count multi =? 2)%Z
     || (CInt.add (multis_count0 multi) (multis_count1 multi) <? 3)%Z
  then Fatal "The t-test function only works for two sets with enough elements to compute variance"
  else Ready (newWiggleIterator {| multi := multi |}).

(** ** Mann-Whitney U (Wilcoxon rank-sum test) *)

Record ValueSetPair : Type := {
  vsp_value : R;
  vsp_set : bool
}.

Record MWUData : Type := {
  mwu_multi : Multiset;
  n1 : Z;
  n2 : Z;
  N : Z;
  rankingTable : list ValueSetPair;
  normalApproximation : bool;
  mu_U : R;
  sigma_U : R
}.

Definition mwu_update (d : MWUData) (m : Multiset) (table : list ValueSetPair) : MWUData :=
  {| mwu_multi := m; n1 := n1 d; n2 := n2 d; N := N d; rankingTable := table;
     normalApproximation := normalApproximation d;
     mu_U := mu_U d; sigma_U := sigma_U d |}.

Definition compareValueSetPairs (A B : ValueSetPair) : Z :=
  if Double.ltb (vsp_value A) (vsp_value B) then (-1)%Z
  else if Double.gtb (vsp_value A) (vsp_value B) then 1%Z
  else 0%Z.

(** One of the two loops that fill the ranking table: [n] entries tagged
    [tag], the value of a replicate out of play replaced by [0]. *)
Definition populate (n : Z) (inplay : list bool) (values : list R) (tag : bool)
    : list ValueSetPair :=
  map (fun index : nat =>
         {| vsp_value := if nth index inplay false then nth index values 0%R else 0%R;
            vsp_set := tag |})
      (seq 0 (Z.to_nat n)).

Definition vsp_zero : ValueSetPair := {| vsp_value := 0; vsp_set := false |}.

Definition entry (table : list ValueSetPair) (index : Z) : ValueSetPair :=
  nth (Z.to_nat index) table vsp_zero.

(** The locals of the rank scan. *)
Record ScanState : Type := {
  U1 : R;
  prev : Z;
  ties : Z;
  previousTies : Z
}.

Section RankScan.

Variable total : Z.          (* data->N *)
Variable group1 : Z.         (* data->n1 *)
Variable table : list ValueSetPair.

(** Line 255: count the entries of set 2 that follow and tie with [v]. *)
Fixpoint look_previous (steps : nat) (index2 : Z) (v : R) (previousTies : Z) : Z :=
  match steps with
  | O => previousTies
  | S steps' =>
      if (index2 <? total)%Z
         && Double.eqb (vsp_value (entry table index2)) v
         && vsp_set (entry table index2)
      then look_previous steps' (CInt.add index2 1) v (CInt.add previousTies 1)
      else previousTies
  end.

(** Line 264: walk the entries that tie with [v], counting those of set 2. *)
Fixpoint look_next (steps : nat) (index2 : Z) (v : R) (ties : Z) : Z :=
  match steps with
  | O => ties
  | S steps' =>
      if (index2 <? total)%Z && Double.eqb (vsp_value (entry table index2)) v
      then look_next steps' (CInt.add index2 1) v
             (if vsp_set (entry table index2) then CInt.add ties 1 else ties)
      else ties
  end.

(** The body of the loop of line 249 at an entry of set 1. *)
Definition scan_set1 (index : Z) (st : ScanState) : ScanState :=
  let v := vsp_value (entry table index) in
  let U := (U1 st + IZR (CInt.sub index (prev st)))%R in
  if negb (ties st =? 0)%Z then
    let previousTies' :=
      look_previous (Z.to_nat total) (CInt.add index 1) v (previousTies st) in
    let U := (U - IZR previousTies' / 2)%R in
    let U := (U + IZR (CInt.sub (ties st) previousTies') / 2)%R in
    if (previousTies' =? ties st)%Z
    then {| U1 := U; prev := CInt.add (prev st) 1; ties := 0; previousTies := 0 |}
    else {| U1 := U; prev := CInt.add (prev st) 1; ties := ties st;
            previousTies := previousTies' |}
  else
    let ties' := look_next (Z.to_nat total) (CInt.add index 1) v (ties st) in
    let U := if negb (ties' =? 0)%Z then (U + IZR ties' / 2)%R else U in
    {| U1 := U; prev := CInt.add (prev st) 1; ties := ties';
       previousTies := previousTies st |}.

(** The loop of line 249. *)
Fixpoint scan (steps : nat) (index : Z) (st : ScanState) : ScanState :=
  match steps with
  | O => st
  | S steps' =>
      if (index <? total)%Z && (prev st <? group1)%Z then
        scan steps' (CInt.add index 1)
          (if negb (vsp_set (entry table index)) then scan_set1 index st else st)
      else st
  end.

Definition rank_sum : R :=
  U1 (scan (Z.to_nat total) 0
        {| U1 := 0; prev := 0; ties := 0; previousTies := 0 |}).

End RankScan.

Section MWU.

(** libm's error function. *)
Variable erf : R -> R.

(** libc's [qsort], given the comparison: some rearrangement of the table
    that the comparison finds in order. *)
Variable qsort :
  (ValueSetPair -> ValueSetPair -> Z) -> list ValueSetPair -> list ValueSetPair.

(** Lines 275 to 280. *)
Definition mwu_value (d : MWUData) (U1 : R) (old : R) : R :=
  if normalApproximation d then
    if Double.gtb U1 (mu_U d)
    then (2 * erf ((mu_U d - U1) / sigma_U d))%R
    else (2 * erf ((U1 - mu_U d) / sigma_U d))%R
  else old.

Definition MWUReductionPop2 (wi : WiggleIterator MWUData)
    : bool * WiggleIterator MWUData :=
  if done wi then (true, wi)
  else if multiset_done (mwu_multi (data wi)) then (true, set_done wi)
  else
    let d := data wi in
    let m := mwu_multi d in
    match skip_windows (windows m) with
    | [] =>
        (true, set_done (set_data wi (mwu_update d (with_windows m []) (rankingTable d))))
    | w :: ws =>
        let m := with_windows m (w :: ws) in
        let wi := set_region wi w in
        let filled :=
          populate (n1 d) (w_multis_inplay0 w) (w_values0 w) false
          ++ populate (n2 d) (w_multis_inplay1 w) (w_values1 w) true in
        let table :=
          qsort compareValueSetPairs (firstn (Z.to_nat (N d)) filled)
          ++ skipn (Z.to_nat (N d)) filled in
        let U1 := rank_sum (N d) (n1 d) table in
        let wi := set_value wi (mwu_value d U1 (value wi)) in
        (true, set_data wi (mwu_update d (popMultiset m) table))
    end.

Fixpoint MWUReductionPop (fuel : nat) (wi : WiggleIterator MWUData)
    : option (WiggleIterator MWUData) :=
  match fuel with
  | O => None
  | S fuel' =>
      if done wi then Some wi
      else
        let (emitted, wi') := MWUReductionPop2 wi in
        if emitted then Some wi' else MWUReductionPop fuel' wi'
  end.

End MWU.

Definition MWUReduction (multi : Multiset) : Constructed MWUData :=
  if negb (count multi =? 2)%Z
     || (multis_count0 multi =? 0)%Z
     || (multis_count1 multi =? 0)%Z
  then Fatal "The Mann-Whitney U function only works for two non-empty sets"
  else
    let n1 := multis_count0 multi in
    let n2 := multis_count1 multi in
    let N := CInt.add n1 n2 in
    Ready (newWiggleIterator
      {| mwu_multi := multi;
         n1 := n1;
         n2 := n2;
         N := N;
         rankingTable := repeat vsp_zero (Z.to_nat N);
         normalApproximation := true;
         mu_U := IZR (CInt.div (CInt.mul n1 n2) 2);
         sigma_U :=
           sqrt (IZR (CInt.div
                        (CInt.mul (CInt.mul n1 n2) (CInt.add (CInt.add n1 n2) 1))
                        12)) |}).

(** ** What a window yields, read off the reducers *)

(** The mean and the variance [TTestReductionPop2] computes for one group
    (lines 107 to 112).  On the reals the variance of equal values is zero
    and no variance is negative; what rounding makes of them, and of the
    test of line 115, is treated in [Floating]. *)
Definition group_mean (count : Z) (inplay : list bool) (values : list R) : R :=
  (fst (accumulate count inplay values) / IZR count)%R.

Definition group_var (count : Z) (inplay : list bool) (values : list R) : R :=
  (snd (accumulate count inplay values) / IZR count
   - group_mean count inplay values * group_mean count inplay values)%R.

Definition var_sum (count1 count2 : Z) (w : Window) : R :=
  (group_var count1 (w_multis_inplay0 w) (w_values0 w)
   + group_var count2 (w_multis_inplay1 w) (w_values1 w))%R.

(** The test of line 115. *)
Definition degenerate (count1 count2 : Z) (w : Window) : bool :=
  Double.eqb (var_sum count1 count2 w) 0.

(** The value of line 133. *)
Definition ttest_value (Q : R -> R -> R) (count1 count2 : Z) (w : Window) : R :=
  let mean1 := group_mean count1 (w_multis_inplay0 w) (w_values0 w) in
  let mean2 := group_mean count2 (w_multis_inplay1 w) (w_values1 w) in
  let var1 := group_var count1 (w_multis_inplay0 w) (w_values0 w) in
  let var2 := group_var count2 (w_multis_inplay1 w) (w_values1 w) in
  (2 * Q (t_of mean1 mean2 var1 var2 count1 count2)
         (nu_of var1 var2 count1 count2))%R.

(** The windows the T-test publishes. *)
Definition ttest_emits (count1 count2 : Z) (w : Window) : bool :=
  negb ((count1 =? 0)%Z || (count2 =? 0)%Z)
  && qualifying w && negb (degenerate count1 count2 w).

Definition ttest_stream (Q : R -> R -> R) (count1 count2 : Z) (ws : list Window)
    : list Record_ :=
  map (fun w => (window_region w, ttest_value Q count1 count2 w))
      (filter (ttest_emits count1 count2) ws).

(** The iterator after one pull of the T-test over the windows [ws] of the
    synchroniser [m], both groups having replicates. *)
Fixpoint ttest_advance (Q : R -> R -> R) (m : Multiset) (ws : list Window)
    (wi : WiggleIterator SetComparisonData) : WiggleIterator SetComparisonData :=
  match ws with
  | [] => set_done (set_data wi {| multi := with_windows m [] |})
  | w :: ws' =>
      if qualifying w then
        if degenerate (multis_count0 m) (multis_count1 m) w
        then ttest_advance Q m ws' (set_region wi w)
        else set_data
               (set_value (set_region wi w)
                  (ttest_value Q (multis_count0 m) (multis_count1 m) w))
               {| multi := with_windows m ws' |}
      else ttest_advance Q m ws' wi
  end.

(** The sorted ranking table and the rank sum of a window, for a reducer with
    data [d]. *)
Definition mwu_table
    (qsort : (ValueSetPair -> ValueSetPair -> Z) -> list ValueSetPair -> list ValueSetPair)
    (d : MWUData) (w : Window) : list ValueSetPair :=
  let filled :=
    populate (n1 d) (w_multis_inplay0 w) (w_values0 w) false
    ++ populate (n2 d) (w_multis_inplay1 w) (w_values1 w) true in
  qsort compareValueSetPairs (firstn (Z.to_nat (N d)) filled)
  ++ skipn (Z.to_nat (N d)) filled.

(** ** The formulas of the statistics, in their textbook form *)

(** The values of the replicates in play. *)
Definition inplay_values (inplay : list bool) (values : list R) : list R :=
  map snd (filter (fun p : bool * R => fst p) (combine inplay values)).

Definition Rsum (l : list R) : R := fold_right Rplus 0%R l.

Definition welch_mean (n : Z) (inplay : list bool) (values : list R) : R :=
  (Rsum (inplay_values inplay values) / IZR n)%R.

Definition welch_var (n : Z) (inplay : list bool) (values : list R) : R :=
  (Rsum (map (fun v => v * v) (inplay_values inplay values)) / IZR n
   - (welch_mean n inplay values) ^ 2)%R.

Definition welch_t (mean1 mean2 var1 var2 : R) (n1 n2 : Z) : R :=
  (Rabs (mean1 - mean2) / sqrt (var1 / IZR n1 + var2 / IZR n2))%R.

Definition satterthwaite (var1 var2 : R) (n1 n2 : Z) : R :=
  ((var1 / IZR n1 + var2 / IZR n2) ^ 2
   / (var1 ^ 2 / (IZR n1 ^ 2 * (IZR n1 - 1))
      + var2 ^ 2 / (IZR n2 ^ 2 * (IZR n2 - 1))))%R.

(** The replicates of both groups together are counted by an int: the sum
    [n1 + n2] of lines 148 and 303 does not overflow. *)
Definition wf_counts (multi : Multiset) : Prop :=
  CInt.in_range (multis_count0 multi + multis_count1 multi).

(** ** The T-test over the arithmetic of doubles

    Whether the test of line 115 fires is decided by the rounding of the
    sums, quotients and products that come before it.  The T-test is
    therefore given a second time, with the arithmetic of doubles left open:
    an [Arithmetic] lists the operations the step uses, and what is proved
    for every [Arithmetic] holds for IEEE binary64 ([binary64] below) as it
    does for the reals.  Synchroniser, iterator and pull are those of the
    first part, over the [double] of the arithmetic. *)

Module Floating.

(** What the T-test asks of doubles: the conversion of an int, the four
    operations, negation, [sqrt], and the comparisons [==] and [<]. *)
Record Arithmetic : Type := {
  double : Type;
  of_int : Z -> double;
  add : double -> double -> double;
  sub : double -> double -> double;
  mul : double -> double -> double;
  div : double -> double -> double;
  neg : double -> double;
  sqrt : double -> double;
  eqb : double -> double -> bool;
  ltb : double -> double -> bool
}.

Section Reducer.

Variable A : Arithmetic.

Record Window : Type := {
  w_chrom : string;
  w_start : Z;
  w_finish : Z;
  w_inplay0 : bool;
  w_inplay1 : bool;
  w_multis_inplay0 : list bool;
  w_multis_inplay1 : list bool;
  w_values0 : list (double A);
  w_values1 : list (double A)
}.

Record Multiset : Type := {
  count : Z;
  multis_count0 : Z;
  multis_count1 : Z;
  windows : list Window
}.

Definition multiset_done (multi : Multiset) : bool :=
  match windows multi with
  | [] => true
  | _ :: _ => false
  end.

Definition popMultiset (multi : Multiset) : Multiset :=
  {| count := count multi;
     multis_count0 := multis_count0 multi;
     multis_count1 := multis_count1 multi;
     windows := tl (windows multi) |}.

Definition with_windows (multi : Multiset) (ws : list Window) : Multiset :=
  {| count := count multi;
     multis_count0 := multis_count0 multi;
     multis_count1 := multis_count1 multi;
     windows := ws |}.

Definition window_region (w : Window) : Region :=
  (w_chrom w, w_start w, w_finish w).

Definition qualifying (w : Window) : bool := w_inplay0 w && w_inplay1 w.

(** The synchroniser's contract on one window, as [wf_window] above. *)
Definition wf_window (n1 n2 : Z) (w : Window) : Prop :=
  Z.of_nat (length (w_multis_inplay0 w)) = n1 /\
  Z.of_nat (length (w_values0 w)) = n1 /\
  Z.of_nat (length (w_multis_inplay1 w)) = n2 /\
  Z.of_nat (length (w_values1 w)) = n2 /\
  w_inplay0 w = existsb (fun b : bool => b) (w_multis_inplay0 w) /\
  w_inplay1 w = existsb (fun b : bool => b) (w_multis_inplay1 w).

Record WiggleIterator (D : Type) : Type := {
  done : bool;
  chrom : string;
  start : Z;
  finish : Z;
  value : double A;
  data : D
}.

Arguments done {D} _.
Arguments chrom {D} _.
Arguments start {D} _.
Arguments finish {D} _.
Arguments value {D} _.
Arguments data {D} _.

Definition set_done {D} (wi : WiggleIterator D) : WiggleIterator D :=
  {| done := true; chrom := chrom wi; start := start wi; finish := finish wi;
     value := value wi; data := data wi |}.

Definition set_data {D} (wi : WiggleIterator D) (d : D) : WiggleIterator D :=
  {| done := done wi; chrom := chrom wi; start := start wi; finish := finish wi;
     value := value wi; data := d |}.

Definition set_region {D} (wi : WiggleIterator D) (w : Window) : WiggleIterator D :=
  {| done := done wi; chrom := w_chrom w; start := w_start w; finish := w_finish w;
     value := value wi; data := data wi |}.

Definition set_value {D} (wi : WiggleIterator D) (v : double A) : WiggleIterator D :=
  {| done := done wi; chrom := chrom wi; start := start wi; finish := finish wi;
     value := v; data := data wi |}.

Definition region {D} (wi : WiggleIterator D) : Region :=
  (chrom wi, start wi, finish wi).

Definition Record_ : Type := (Region * double A)%type.

Definition current {D} (wi : WiggleIterator D) : Record_ := (region wi, value wi).

Fixpoint skip_windows (ws : list Window) : list Window :=
  match ws with
  | [] => []
  | w :: ws' =>
      if negb (w_inplay0 w) || negb (w_inplay1 w) then skip_windows ws' else ws
  end.

Definition pop {D} (popFunction : WiggleIterator D -> option (WiggleIterator D))
    (wi : WiggleIterator D) : option (WiggleIterator D) :=
  if done wi then Some wi else popFunction wi.

Fixpoint pulls {D} (popFunction : WiggleIterator D -> option (WiggleIterator D))
    (n : nat) (wi : WiggleIterator D) : list Record_ :=
  match n with
  | O => []
  | S n' =>
      match pop popFunction wi with
      | None => []
      | Some wi' =>
          if done wi' then [] else current wi' :: pulls popFunction n' wi'
      end
  end.

Definition newWiggleIterator {D} (d : D) : WiggleIterator D :=
  {| done := false; chrom := EmptyString; start := 0; finish := 0;
     value := of_int A 1; data := d |}.

Inductive Constructed (D : Type) : Type :=
| Fatal (message : string)
| Ready (iterator : WiggleIterator D).

Arguments Fatal {D} _.
Arguments Ready {D} _.

Record SetComparisonData : Type := { multi : Multiset }.

(** Lines 81 to 98: the sums start from the int [0]. *)
Definition accumulate_step (inplay : list bool) (values : list (double A))
    (acc : double A * double A) (index : nat) : double A * double A :=
  if nth index inplay false
  then (add A (fst acc) (nth index values (of_int A 0)),
        add A (snd acc)
          (mul A (nth index values (of_int A 0)) (nth index values (of_int A 0))))
  else acc.

Definition accumulate (count : Z) (inplay : list bool) (values : list (double A))
    : double A * double A :=
  fold_left (accumulate_step inplay values) (seq 0 (Z.to_nat count))
    (of_int A 0, of_int A 0).

(** The values of the replicates in play, in the order of the replicates. *)
Definition inplay_values (inplay : list bool) (values : list (double A))
    : list (double A) :=
  map snd (filter (fun p : bool * double A => fst p) (combine inplay values)).

(** Line 129; the int products [count * count * (count - 1)] are
    [nu_denominator]. *)
Definition nu_of (var1 var2 : double A) (count1 count2 : Z) : double A :=
  div A
    (mul A
       (add A (div A var1 (of_int A count1)) (div A var2 (of_int A count2)))
       (add A (div A var1 (of_int A count1)) (div A var2 (of_int A count2))))
    (add A
       (div A (mul A var1 var1) (of_int A (nu_denominator count1)))
       (div A (mul A var2 var2) (of_int A (nu_denominator count2)))).

(** Lines 122 to 125. *)
Definition t_of (mean1 mean2 var1 var2 : double A) (count1 count2 : Z) : double A :=
  let t :=
    div A (sub A mean1 mean2)
      (sqrt A (add A (div A var1 (of_int A count1)) (div A var2 (of_int A count2)))) in
  if ltb A t (of_int A 0) then neg A t else t.

Variable gsl_cdf_tdist_Q : double A -> double A -> double A.
Variable indeterminate : WiggleIterator SetComparisonData -> bool.

Fixpoint TTestReductionPop2 (fuel : nat) (wi : WiggleIterator SetComparisonData)
    {struct fuel} : option (bool * WiggleIterator SetComparisonData) :=
  match fuel with
  | O => None
  | S fuel' =>
      if done wi then Some (true, wi)
      else if multiset_done (multi (data wi)) then Some (true, set_done wi)
      else
        let m := multi (data wi) in
        match skip_windows (windows m) with
        | [] =>
            Some (true, set_done (set_data wi {| multi := with_windows m [] |}))
        | w :: ws =>
            let m := with_windows m (w :: ws) in
            let wi := set_region wi w in
            let count1 := multis_count0 m in
            let count2 := multis_count1 m in
            let (sum1, sumSq1) := accumulate (multis_count0 m) (w_multis_inplay0 w) (w_values0 w) in
            let (sum2, sumSq2) := accumulate (multis_count1 m) (w_multis_inplay1 w) (w_values1 w) in
            if (count1 =? 0)%Z || (count2 =? 0)%Z then
              match pop (TTestReductionPop fuel')
                        (set_data wi {| multi := popMultiset m |}) with
              | None => None
              | Some wi' => Some (indeterminate wi', wi')
              end
            else
              let mean1 := div A sum1 (of_int A count1) in
              let mean2 := div A sum2 (of_int A count2) in
              let meanSq1 := div A sumSq1 (of_int A count1) in
              let meanSq2 := div A sumSq2 (of_int A count2) in
              let var1 := sub A meanSq1 (mul A mean1 mean1) in
              let var2 := sub A meanSq2 (mul A mean2 mean2) in
              if eqb A (add A var1 var2) (of_int A 0) then
                Some (false, set_data wi {| multi := popMultiset m |})
              else
                let t := t_of mean1 mean2 var1 var2 count1 count2 in
                let nu := nu_of var1 var2 count1 count2 in
                Some (true,
                      set_data
                        (set_value wi (mul A (of_int A 2) (gsl_cdf_tdist_Q t nu)))
                        {| multi := popMultiset m |})
        end
  end

with TTestReductionPop (fuel : nat) (wi : WiggleIterator SetComparisonData)
    {struct fuel} : option (WiggleIterator SetComparisonData) :=
  match fuel with
  | O => None
  | S fuel' =>
      if done wi then Some wi
      else
        match TTestReductionPop2 fuel' wi with
        | None => None
        | Some (true, wi') => Some wi'
        | Some (false, wi') => TTestReductionPop fuel' wi'
        end
  end.

Definition TTestReduction (multi : Multiset) : Constructed SetComparisonData :=
  if negb (count multi =? 2)%Z
     || (CInt.add (multis_count0 multi) (multis_count1 multi) <? 3)%Z
  then Fatal "The t-test function only works for two sets with enough elements to compute variance"
  else Ready (newWiggleIterator {| multi := multi |}).

(** What a window yields, read off the step. *)

Definition group_mean (count : Z) (inplay : list bool) (values : list (double A))
    : double A :=
  div A (fst (accumulate count inplay values)) (of_int A count).

Definition group_var (count : Z) (inplay : list bool) (values : list (double A))
    : double A :=
  sub A (div A (snd (accumulate count inplay values)) (of_int A count))
    (mul A (group_mean count inplay values) (group_mean count inplay values)).

Definition var_sum (count1 count2 : Z) (w : Window) : double A :=
  add A (group_var count1 (w_multis_inplay0 w) (w_values0 w))
    (group_var count2 (w_multis_inplay1 w) (w_values1 w)).

(** The test of line 115, on the computed variances. *)
Definition degenerate (count1 count2 : Z) (w : Window) : bool :=
  eqb A (var_sum count1 count2 w) (of_int A 0).

(** The degrees of freedom of line 129. *)
Definition ttest_nu (count1 count2 : Z) (w : Window) : double A :=
  nu_of (group_var count1 (w_multis_inplay0 w) (w_values0 w))
    (group_var count2 (w_multis_inplay1 w) (w_values1 w)) count1 count2.

(** The value of line 133. *)
Definition ttest_value (count1 count2 : Z) (w : Window) : double A :=
  let mean1 := group_mean count1 (w_multis_inplay0 w) (w_values0 w) in
  let mean2 := group_mean count2 (w_multis_inplay1 w) (w_values1 w) in
  let var1 := group_var count1 (w_multis_inplay0 w) (w_values0 w) in
  let var2 := group_var count2 (w_multis_inplay1 w) (w_values1 w) in
  mul A (of_int A 2)
    (gsl_cdf_tdist_Q (t_of mean1 mean2 var1 var2 count1 count2)
       (ttest_nu count1 count2 w)).

Definition ttest_emits (count1 count2 : Z) (w : Window) : bool :=
  qualifying w && negb (degenerate count1 count2 w).

Definition ttest_stream (count1 count2 : Z) (ws : list Window) : list Record_ :=
  map (fun w => (window_region w, ttest_value count1 count2 w))
      (filter (ttest_emits count1 count2) ws).

Fixpoint ttest_advance (m : Multiset) (ws : list Window)
    (wi : WiggleIterator SetComparisonData) : WiggleIterator SetComparisonData :=
  match ws with
  | [] => set_done (set_data wi {| multi := with_windows m [] |})
  | w :: ws' =>
      if qualifying w then
        if degenerate (multis_count0 m) (multis_count1 m) w
        then ttest_advance m ws' (set_region wi w)
        else set_data
               (set_value (set_region wi w)
                  (ttest_value (multis_count0 m) (multis_count1 m) w))
               {| multi := with_windows m ws' |}
      else ttest_advance m ws' wi
  end.

End Reducer.

Arguments w_chrom {A} _.
Arguments w_start {A} _.
Arguments w_finish {A} _.
Arguments w_inplay0 {A} _.
Arguments w_inplay1 {A} _.
Arguments w_multis_inplay0 {A} _.
Arguments w_multis_inplay1 {A} _.
Arguments w_values0 {A} _.
Arguments w_values1 {A} _.
Arguments count {A} _.
Arguments multis_count0 {A} _.
Arguments multis_count1 {A} _.
Arguments windows {A} _.
Arguments multi {A} _.
Arguments done {A D} _.
Arguments chrom {A D} _.
Arguments start {A D} _.
Arguments finish {A D} _.
Arguments value {A D} _.
Arguments data {A D} _.
Arguments Fatal {A D} _.
Arguments Ready {A D} _.
Arguments multiset_done {A} _.
Arguments popMultiset {A} _.
Arguments with_windows {A} _ _.
Arguments window_region {A} _.
Arguments qualifying {A} _.
Arguments wf_window {A} _ _ _.
Arguments set_done {A D} _.
Arguments set_data {A D} _ _.
Arguments set_region {A D} _ _.
Arguments set_value {A D} _ _.
Arguments region {A D} _.
Arguments current {A D} _.
Arguments skip_windows {A} _.
Arguments pop {A D} _ _.
Arguments pulls {A D} _ _ _.
Arguments newWiggleIterator {A D} _.
Arguments TTestReduction {A} _.

End Floating.

(** ** Sample inputs *)

Definition mkWindow (flags0 : list bool) (values0 : list R)
    (flags1 : list bool) (values1 : list R) : Window :=
  {| w_chrom := "chr1"; w_start := 100; w_finish := 200;
     w_inplay0 := true; w_inplay1 := true;
     w_multis_inplay0 := flags0; w_multis_inplay1 := flags1;
     w_values0 := values0; w_values1 := values1 |}.

Definition mkMultiset (count1 count2 : Z) (ws : list Window) : Multiset :=
  {| count := 2; multis_count0 := count1; multis_count1 := count2; windows := ws |}.

(** A stand-in for the tail of Student's t, one for the error function (odd
    and increasing, as [erf] is), and two readings of the result of the bare
    [return;]. *)
Definition tail_stub (t nu : R) : R := 0%R.
Definition erf_stub (x : R) : R := x.
Definition reads_true (wi : WiggleIterator SetComparisonData) : bool := true.
Definition reads_false (wi : WiggleIterator SetComparisonData) : bool := false.

(** A [qsort] that leaves the table as it is: right for a table that is
    already in order. *)
Definition qsort_keep (compare : ValueSetPair -> ValueSetPair -> Z)
    (table : list ValueSetPair) : list ValueSetPair := table.

(** Groups [1, 2, 3] and [4, 5], every replicate in play. *)
Definition worked_window : Window :=
  mkWindow [true; true; true] [1; 2; 3]%R [true; true] [4; 5]%R.

(** Both groups hold the value [1] wherever they are in play, the second
    replicate of the first group is out of play. *)
Definition partial_window : Window :=
  mkWindow [true; false] [1; 0]%R [true; true] [1; 1]%R.

(** Both groups hold the value [1] in all their replicates. *)
Definition constant_window : Window :=
  mkWindow [true; true] [1; 1]%R [true; true] [1; 1]%R.

(** A first group of 1291 replicates, all in play. *)
Definition large_window : Window :=
  mkWindow (repeat true 1291) (1%R :: repeat 0%R 1290) [true; true] [0; 2]%R.

(** No replicate of the first group, of three, is in play: its flag is
    down. *)
Definition vacant_window : Window :=
  {| w_chrom := "chr1"; w_start := 0; w_finish := 100;
     w_inplay0 := false; w_inplay1 := true;
     w_multis_inplay0 := [false; false; false]; w_multis_inplay1 := [true; true];
     w_values0 := [0; 0; 0]%R; w_values1 := [4; 5]%R |}.

(** Groups [1, 2] and [3, 4], every replicate in play. *)
Definition ranked_window : Window :=
  mkWindow [true; true] [1; 2]%R [true; true] [3; 4]%R.

Definition ttest_iterator (count1 count2 : Z) (ws : list Window)
    : WiggleIterator SetComparisonData :=
  newWiggleIterator {| multi := mkMultiset count1 count2 ws |}.

(** The Mann-Whitney iterator [MWUReduction] builds over groups of [count1]
    and [count2] replicates. *)
Definition mwu_iterator (count1 count2 : Z) (ws : list Window)
    : WiggleIterator MWUData :=
  match MWUReduction (mkMultiset count1 count2 ws) with
  | Ready wi => wi
  | Fatal _ =>
      newWiggleIterator
        {| mwu_multi := mkMultiset count1 count2 ws; n1 := 0; n2 := 0; N := 0;
           rankingTable := []; normalApproximation := false;
           mu_U := 0; sigma_U := 0 |}
  end.

(** Entries of a ranking table, of set 1 and of set 2. *)
Definition of_set1 (v : R) : ValueSetPair := {| vsp_value := v; vsp_set := false |}.
Definition of_set2 (v : R) : ValueSetPair := {| vsp_value := v; vsp_set := true |}.

(** ** IEEE binary64, and sample inputs on it *)

(** The conversion of an int to a double: exact, an int having 32 bits. *)
Definition binary64_of_int (z : Z) : PrimFloat.float :=
  match z with
  | Z0 => PrimFloat.zero
  | Zpos p => PrimFloat.of_uint63 (Uint63.of_Z (Zpos p))
  | Zneg p => PrimFloat.opp (PrimFloat.of_uint63 (Uint63.of_Z (Zpos p)))
  end.

Definition binary64 : Floating.Arithmetic :=
  {| Floating.double := PrimFloat.float;
     Floating.of_int := binary64_of_int;
     Floating.add := PrimFloat.add;
     Floating.sub := PrimFloat.sub;
     Floating.mul := PrimFloat.mul;
     Floating.div := PrimFloat.div;
     Floating.neg := PrimFloat.opp;
     Floating.sqrt := PrimFloat.sqrt;
     Floating.eqb := PrimFloat.eqb;
     Floating.ltb := PrimFloat.ltb |}.

(** Sample inputs on binary64.  The values of a window are given as ints
    over a common divisor: the doubles are the quotients. *)

Definition binary64_window (flags0 : list bool) (values0 : list Z)
    (flags1 : list bool) (values1 : list Z) (divisor : Z) : Floating.Window binary64 :=
  Floating.Build_Window binary64 "chr1" 100 200
    (existsb (fun b : bool => b) flags0) (existsb (fun b : bool => b) flags1)
    flags0 flags1
    (map (fun z => PrimFloat.div (binary64_of_int z) (binary64_of_int divisor)) values0)
    (map (fun z => PrimFloat.div (binary64_of_int z) (binary64_of_int divisor)) values1).

Definition binary64_multiset (count1 count2 : Z) (ws : list (Floating.Window binary64))
    : Floating.Multiset binary64 :=
  Floating.Build_Multiset binary64 2 count1 count2 ws.

Definition binary64_iterator (count1 count2 : Z) (ws : list (Floating.Window binary64))
    : Floating.WiggleIterator binary64 (Floating.SetComparisonData binary64) :=
  Floating.newWiggleIterator
    (Floating.Build_SetComparisonData binary64 (binary64_multiset count1 count2 ws)).

(** A stand-in for the tail of Student's t that shows the degrees of freedom
    it is given, and a reading of the result of the bare [return;]. *)
Definition binary64_tail_stub (t nu : PrimFloat.float) : PrimFloat.float := nu.
Definition binary64_reads_false
    (wi : Floating.WiggleIterator binary64 (Floating.SetComparisonData binary64)) : bool :=
  false.

(** Groups [1, 2, 3] and [4, 5]. *)
Definition binary64_worked : Floating.Window binary64 :=
  binary64_window [true; true; true] [1; 2; 3]%Z [true; true] [4; 5]%Z 1.

(** Every replicate of both groups holds [1]. *)
Definition binary64_ones : Floating.Window binary64 :=
  binary64_window [true; true; true] [1; 1; 1]%Z [true; true] [1; 1]%Z 1.


(** A group of one replicate beside a group of two. *)
Definition binary64_single : Floating.Window binary64 :=
  binary64_window [true] [5]%Z [true; true] [1; 3]%Z 1.


(** ** The reals as an arithmetic *)

Definition reals : Floating.Arithmetic :=
  {| Floating.double := R;
     Floating.of_int := IZR;
     Floating.add := Rplus;
     Floating.sub := Rminus;
     Floating.mul := Rmult;
     Floating.div := Rdiv;
     Floating.neg := Ropp;
     Floating.sqrt := sqrt;
     Floating.eqb := Double.eqb;
     Floating.ltb := Double.ltb |}.

Definition on_reals (w : Window) : Floating.Window reals :=
  Floating.Build_Window reals (w_chrom w) (w_start w) (w_finish w)
    (w_inplay0 w) (w_inplay1 w) (w_multis_inplay0 w) (w_multis_inplay1 w)
    (w_values0 w) (w_values1 w).

(** ** Seeking *)

Section Seek.

(** [seekMultiset] of [multiSet.c]: the synchroniser repositioned on a
    region. *)
Variable seekMultiset : Multiset -> string -> Z -> Z -> Multiset.

Variable gsl_cdf_tdist_Q : R -> R -> R.
Variable indeterminate : WiggleIterator SetComparisonData -> bool.
Variable erf : R -> R.
Variable qsort :
  (ValueSetPair -> ValueSetPair -> Z) -> list ValueSetPair -> list ValueSetPair.

(** [SetComparisonSeek] is bound to the T-test iterator, whose pop function
    is [TTestReductionPop]. *)
Definition SetComparisonSeek (fuel : nat) (iter : WiggleIterator SetComparisonData)
    (chrom : string) (start finish : Z) : option (WiggleIterator SetComparisonData) :=
  let data' := {| multi := seekMultiset (multi (data iter)) chrom start finish |} in
  pop (TTestReductionPop gsl_cdf_tdist_Q indeterminate fuel) (set_data iter data').

Definition MWUSeek (fuel : nat) (iter : WiggleIterator MWUData)
    (chrom : string) (start finish : Z) : option (WiggleIterator MWUData) :=
  let d := data iter in
  let data' :=
    mwu_update d (seekMultiset (mwu_multi d) chrom start finish) (rankingTable d) in
  pop (MWUReductionPop erf qsort fuel) (set_data iter data').

End Seek.

(** ** Notions the further statements use *)

(** The two groups of a window, and of a synchroniser, taken in the other
    order. *)
Definition swap_window (w : Window) : Window :=
  {| w_chrom := w_chrom w; w_start := w_start w; w_finish := w_finish w;
     w_inplay0 := w_inplay1 w; w_inplay1 := w_inplay0 w;
     w_multis_inplay0 := w_multis_inplay1 w; w_multis_inplay1 := w_multis_inplay0 w;
     w_values0 := w_values1 w; w_values1 := w_values0 w |}.

Definition swap_multiset (m : Multiset) : Multiset :=
  {| count := count m;
     multis_count0 := multis_count1 m; multis_count1 := multis_count0 m;
     windows := map swap_window (windows m) |}.

(** The values the ranking table holds for a group: the value of a replicate
    in play, [0] for one out of play. *)
Definition substituted (n : Z) (inplay : list bool) (values : list R) : list R :=
  map vsp_value (populate n inplay values false).

(** No entry of the table carries the value of the entry before it. *)
Fixpoint no_adjacent_ties (table : list ValueSetPair) : Prop :=
  match table with
  | [] => True
  | e :: rest =>
      match rest with
      | [] => True
      | e' :: _ => vsp_value e <> vsp_value e' /\ no_adjacent_ties rest
      end
  end.

(** The table is in order for [compareValueSetPairs]. *)
Fixpoint in_order (table : list ValueSetPair) : Prop :=
  match table with
  | [] => True
  | e :: rest =>
      match rest with
      | [] => True
      | e' :: _ => (compareValueSetPairs e e' <= 0)%Z /\ in_order rest
      end
  end.

(** For every entry of set 1, the entries of set 2 before it, [seen] of
    them having gone by already: all of them added up. *)
Fixpoint set2_before (seen : Z) (table : list ValueSetPair) : Z :=
  match table with
  | [] => 0
  | e :: rest =>
      if vsp_set e then set2_before (seen + 1) rest
      else (seen + set2_before seen rest)%Z
  end.

Definition count_set1 (table : list ValueSetPair) : nat :=
  length (filter (fun e => negb (vsp_set e)) table).

(** The number of pairs of a value of [xs] and a smaller value of [ys]: for
    every [x] the number of [ys] below it, all of them added up. *)
Definition pairs_above (xs ys : list R) : nat :=
  list_sum (map (fun x => length (filter (fun y => Double.ltb y x) ys)) xs).

(** The same count on a table: for every entry of set 1 the entries of set 2
    of a smaller value. *)
Definition set2_below (v : R) (table : list ValueSetPair) : nat :=
  length (filter (fun e => vsp_set e && Double.ltb (vsp_value e) v) table).

Definition crossings (table : list ValueSetPair) : nat :=
  list_sum (map (fun e => if vsp_set e then 0%nat else set2_below (vsp_value e) table)
              table).

(** The values go up along the table. *)
Definition ascending (t : list ValueSetPair) : Prop :=
  StronglySorted (fun a b => (vsp_value a < vsp_value b)%R) t.

(** The record of a window for the Mann-Whitney reducer with data [d]. *)
Definition mwu_record (erf : R -> R)
    (qsort : (ValueSetPair -> ValueSetPair -> Z) -> list ValueSetPair -> list ValueSetPair)
    (d : MWUData) (w : Window) : Record_ :=
  (window_region w,
   mwu_value erf d (rank_sum (N d) (n1 d) (mwu_table qsort d w)) 0%R).

(** ** Facts on ints and doubles *)

Lemma wrap_in_range (z : Z) : CInt.in_range z -> CInt.wrap z = z.
Proof.
  unfold CInt.in_range, CInt.wrap, CInt.INT_MIN, CInt.INT_MAX. intros H.
  rewrite Z.mod_small; lia.
Qed.

Lemma wrap_range (z : Z) : CInt.in_range (CInt.wrap z).
Proof.
  unfold CInt.in_range, CInt.wrap, CInt.INT_MIN, CInt.INT_MAX.
  pose proof (Z.mod_pos_bound (z + 2 ^ 31) (2 ^ 32)). lia.
Qed.

Lemma eqb_refl (x : R) : Double.eqb x x = true.
Proof. unfold Double.eqb. destruct (Req_EM_T x x); [reflexivity | contradiction]. Qed.

Lemma eqb_true (x y : R) : x = y -> Double.eqb x y = true.
Proof. intros ->. apply eqb_refl. Qed.

Lemma eqb_false (x y : R) : x <> y -> Double.eqb x y = false.
Proof.
  unfold Double.eqb. intros H.
  destruct (Req_EM_T x y); [contradiction | reflexivity].
Qed.

Lemma eqb_spec (x y : R) : Double.eqb x y = true <-> x = y.
Proof.
  unfold Double.eqb. destruct (Req_EM_T x y); split; intros; try easy.
Qed.

Lemma ltb_true (x y : R) : (x < y)%R -> Double.ltb x y = true.
Proof.
  unfold Double.ltb. intros H.
  destruct (Rlt_dec x y); [reflexivity | contradiction].
Qed.

Lemma ltb_false (x y : R) : (y <= x)%R -> Double.ltb x y = false.
Proof.
  unfold Double.ltb. intros H. destruct (Rlt_dec x y); [lra | reflexivity].
Qed.

(** ** The T-test, pull by pull *)

Lemma with_windows_twice (m : Multiset) (a b : list Window) :
  with_windows (with_windows m a) b = with_windows m b.
Proof. reflexivity. Qed.

Lemma popMultiset_with_windows (m : Multiset) (w : Window) (ws : list Window) :
  popMultiset (with_windows m (w :: ws)) = with_windows m ws.
Proof. reflexivity. Qed.

Lemma accumulate_pair (c : Z) (fl : list bool) (vs : list R) :
  accumulate c fl vs = (fst (accumulate c fl vs), snd (accumulate c fl vs)).
Proof. destruct (accumulate c fl vs); reflexivity. Qed.

Section TTestFacts.

Variable Q : R -> R -> R.
Variable indet : WiggleIterator SetComparisonData -> bool.

Local Abbreviation Pop2 := (TTestReductionPop2 Q indet).
Local Abbreviation Pop := (TTestReductionPop Q indet).

Lemma TTestReductionPop2_eq fuel wi :
  Pop2 (S fuel) wi =
  if done wi then Some (true, wi)
  else if multiset_done (multi (data wi)) then Some (true, set_done wi)
  else
    let m := multi (data wi) in
    match skip_windows (windows m) with
    | [] => Some (true, set_done (set_data wi {| multi := with_windows m [] |}))
    | w :: ws =>
        let m := with_windows m (w :: ws) in
        let wi := set_region wi w in
        let count1 := multis_count0 m in
        let count2 := multis_count1 m in
        let (sum1, sumSq1) := accumulate (multis_count0 m) (w_multis_inplay0 w) (w_values0 w) in
        let (sum2, sumSq2) := accumulate (multis_count1 m) (w_multis_inplay1 w) (w_values1 w) in
        if (count1 =? 0)%Z || (count2 =? 0)%Z then
          match pop (Pop fuel) (set_data wi {| multi := popMultiset m |}) with
          | None => None
          | Some wi' => Some (indet wi', wi')
          end
        else
          let mean1 := (sum1 / IZR count1)%R in
          let mean2 := (sum2 / IZR count2)%R in
          let meanSq1 := (sumSq1 / IZR count1)%R in
          let meanSq2 := (sumSq2 / IZR count2)%R in
          let var1 := (meanSq1 - mean1 * mean1)%R in
          let var2 := (meanSq2 - mean2 * mean2)%R in
          if Double.eqb (var1 + var2) 0 then
            Some (false, set_data wi {| multi := popMultiset m |})
          else
            let t := t_of mean1 mean2 var1 var2 count1 count2 in
            let nu := nu_of var1 var2 count1 count2 in
            Some (true,
                  set_data (set_value wi (2 * Q t nu)%R) {| multi := popMultiset m |})
    end.
Proof. reflexivity. Qed.

Lemma TTestReductionPop_eq fuel wi :
  Pop (S fuel) wi =
  if done wi then Some wi
  else
    match Pop2 fuel wi with
    | None => None
    | Some (true, wi') => Some wi'
    | Some (false, wi') => Pop fuel wi'
    end.
Proof. reflexivity. Qed.

(** A window that does not qualify is passed over. *)
Lemma TTestReductionPop2_skip fuel wi m w ws :
  done wi = false ->
  data wi = {| multi := with_windows m (w :: ws) |} ->
  qualifying w = false ->
  Pop2 (S fuel) wi
  = Pop2 (S fuel) (set_data wi {| multi := with_windows m ws |}).
Proof.
  intros Hd Hdata Hq.
  rewrite !TTestReductionPop2_eq. cbn [set_data done data].
  rewrite Hd, Hdata. cbn [multi multiset_done with_windows windows skip_windows].
  assert (Hn : negb (w_inplay0 w) || negb (w_inplay1 w) = true).
  { unfold qualifying in Hq. destruct (w_inplay0 w), (w_inplay1 w); easy. }
  rewrite Hn.
  destruct ws as [|w' ws']; [reflexivity|].
  cbn [multiset_done windows].
  destruct (skip_windows (w' :: ws')); reflexivity.
Qed.

(** The input has run out. *)
Lemma TTestReductionPop2_exhausted fuel wi m :
  done wi = false ->
  data wi = {| multi := with_windows m [] |} ->
  Pop2 (S fuel) wi = Some (true, set_done wi).
Proof.
  intros Hd Hdata. rewrite TTestReductionPop2_eq, Hd, Hdata. reflexivity.
Qed.

(** A qualifying window of groups that have replicates: the window is dropped
    when the variances add up to zero, published otherwise. *)
Lemma TTestReductionPop2_qualifying fuel wi m w ws :
  done wi = false ->
  data wi = {| multi := with_windows m (w :: ws) |} ->
  qualifying w = true ->
  multis_count0 m <> 0%Z -> multis_count1 m <> 0%Z ->
  Pop2 (S fuel) wi
  = Some (if degenerate (multis_count0 m) (multis_count1 m) w
          then (false, set_data (set_region wi w) {| multi := with_windows m ws |})
          else (true,
                set_data
                  (set_value (set_region wi w)
                     (ttest_value Q (multis_count0 m) (multis_count1 m) w))
                  {| multi := with_windows m ws |})).
Proof.
  intros Hd Hdata Hq H1 H2.
  rewrite TTestReductionPop2_eq, Hd, Hdata.
  cbn [multi multiset_done with_windows windows skip_windows].
  assert (Hn : negb (w_inplay0 w) || negb (w_inplay1 w) = false).
  { unfold qualifying in Hq. destruct (w_inplay0 w), (w_inplay1 w); easy. }
  rewrite Hn.
  cbv zeta.
  cbn [with_windows multis_count0 multis_count1 popMultiset windows tl count].
  unfold degenerate, var_sum, ttest_value, group_var, group_mean.
  destruct (accumulate (multis_count0 m) (w_multis_inplay0 w) (w_values0 w)) as [sum1 sumSq1].
  destruct (accumulate (multis_count1 m) (w_multis_inplay1 w) (w_values1 w)) as [sum2 sumSq2].
  apply Z.eqb_neq in H1, H2. rewrite H1, H2. cbn [orb fst snd].
  destruct (Double.eqb _ 0); reflexivity.
Qed.

Lemma ttest_advance_set_data m ws : forall wi d,
  ttest_advance Q m ws (set_data wi d) = ttest_advance Q m ws wi.
Proof.
  induction ws as [|w ws IH]; intros wi d; cbn [ttest_advance]; [reflexivity|].
  destruct (qualifying w); [|apply IH].
  destruct (degenerate _ _ w); [|reflexivity].
  apply (IH (set_region wi w) d).
Qed.

(** One pull, both groups having replicates. *)
Lemma TTestReductionPop_advance ws : forall fuel wi m,
  done wi = false ->
  data wi = {| multi := with_windows m ws |} ->
  multis_count0 m <> 0%Z -> multis_count1 m <> 0%Z ->
  (length ws + 2 <= fuel)%nat ->
  Pop fuel wi = Some (ttest_advance Q m ws wi).
Proof.
  induction ws as [|w ws IH]; intros fuel wi m Hd Hdata H1 H2 Hf.
  - destruct fuel as [|[|fuel]]; cbn [length] in Hf; try lia.
    rewrite TTestReductionPop_eq, Hd.
    rewrite (TTestReductionPop2_exhausted _ wi m Hd Hdata).
    cbn [ttest_advance]. destruct wi; cbn in *. subst. reflexivity.
  - destruct fuel as [|[|fuel]]; cbn [length] in Hf; try lia.
    rewrite TTestReductionPop_eq, Hd.
    destruct (qualifying w) eqn:Hq.
    + rewrite (TTestReductionPop2_qualifying _ wi m w ws Hd Hdata Hq H1 H2).
      cbn [ttest_advance]. rewrite Hq.
      destruct (degenerate (multis_count0 m) (multis_count1 m) w); [|reflexivity].
      rewrite <- (ttest_advance_set_data m ws (set_region wi w)
                    {| multi := with_windows m ws |}).
      apply IH; try assumption; try reflexivity. lia.
    + cbn [ttest_advance]. rewrite Hq.
      rewrite <- (ttest_advance_set_data m ws wi {| multi := with_windows m ws |}).
      transitivity (Pop (S (S fuel)) (set_data wi {| multi := with_windows m ws |})).
      * rewrite TTestReductionPop_eq. cbn [set_data done]. rewrite Hd.
        rewrite (TTestReductionPop2_skip _ wi m w ws Hd Hdata Hq). reflexivity.
      * apply IH; try assumption; try reflexivity. lia.
Qed.

Lemma skip_windows_shorter ws : forall w ws',
  skip_windows ws = w :: ws' ->
  qualifying w = true /\ (length ws' < length ws)%nat.
Proof.
  induction ws as [|w0 ws IH]; intros w ws' H; cbn [skip_windows] in H; [discriminate|].
  destruct (negb (w_inplay0 w0) || negb (w_inplay1 w0)) eqn:E.
  - destruct (IH _ _ H) as [Hq Hl]. split; [exact Hq|]. cbn [length]. lia.
  - injection H as -> ->. split; [|cbn [length]; lia].
    unfold qualifying. destruct (w_inplay0 w), (w_inplay1 w); easy.
Qed.

(** A group without replicates: whatever the bare [return;] hands back, a
    pull runs the input out and leaves the iterator done. *)
Lemma TTestReduction_zero_count fuel :
  (forall wi,
     done wi = false ->
     multis_count0 (multi (data wi)) = 0%Z \/ multis_count1 (multi (data wi)) = 0%Z ->
     (2 * length (windows (multi (data wi))) + 1 <= fuel)%nat ->
     exists b wi', Pop2 fuel wi = Some (b, wi') /\ done wi' = true)
  /\
  (forall wi,
     done wi = false ->
     multis_count0 (multi (data wi)) = 0%Z \/ multis_count1 (multi (data wi)) = 0%Z ->
     (2 * length (windows (multi (data wi))) + 2 <= fuel)%nat ->
     exists wi', Pop fuel wi = Some wi' /\ done wi' = true).
Proof.
  induction fuel as [|fuel [IH2 IH1]]; [split; intros; lia|].
  split; intros wi Hd Hz Hf.
  - rewrite TTestReductionPop2_eq, Hd.
    destruct (multiset_done (multi (data wi))); [eexists _, _; split; reflexivity|].
    cbv zeta.
    destruct (skip_windows (windows (multi (data wi)))) as [|w ws] eqn:Hs;
      [eexists _, _; split; reflexivity|].
    destruct (skip_windows_shorter _ _ _ Hs) as [_ Hl].
    cbn [with_windows multis_count0 multis_count1 popMultiset windows tl count].
    destruct (accumulate _ (w_multis_inplay0 w) _), (accumulate _ (w_multis_inplay1 w) _).
    assert (Hz' : ((multis_count0 (multi (data wi)) =? 0)%Z
                   || (multis_count1 (multi (data wi)) =? 0)%Z) = true).
    { destruct Hz as [-> | ->]; cbn; [reflexivity | apply orb_true_r]. }
    rewrite Hz'. unfold pop. cbn [set_data set_region done].
    rewrite Hd.
    match goal with
    | |- context [TTestReductionPop Q indet fuel ?x] =>
        destruct (IH1 x) as (wi' & Hp & Hd');
          [ exact Hd | exact Hz
          | cbn [data multi windows set_data set_region popMultiset with_windows tl]; lia
          | rewrite Hp ]
    end.
    eexists _, _; split; [reflexivity | exact Hd'].
  - rewrite TTestReductionPop_eq, Hd.
    destruct (IH2 wi Hd Hz) as (b & wi' & Hp & Hd'); [lia|].
    rewrite Hp. destruct b; [eexists; split; [reflexivity | exact Hd']|].
    destruct fuel as [|fuel]; [lia|].
    rewrite TTestReductionPop_eq, Hd'.
    eexists; split; [reflexivity | exact Hd'].
Qed.

Lemma ttest_emits_nonzero c1 c2 w :
  c1 <> 0%Z -> c2 <> 0%Z ->
  ttest_emits c1 c2 w = qualifying w && negb (degenerate c1 c2 w).
Proof.
  intros H1 H2. unfold ttest_emits.
  apply Z.eqb_neq in H1, H2. rewrite H1, H2. reflexivity.
Qed.

Lemma ttest_emits_zero c1 c2 ws :
  c1 = 0%Z \/ c2 = 0%Z -> filter (ttest_emits c1 c2) ws = [].
Proof.
  intros Hz. induction ws as [|w ws IH]; [reflexivity|].
  cbn [filter]. rewrite IH. unfold ttest_emits.
  destruct Hz as [-> | ->]; cbn; [reflexivity|].
  rewrite orb_true_r. reflexivity.
Qed.

(** Where one pull leaves the iterator: done when no window is left to
    publish, on the first such window otherwise. *)
Lemma ttest_advance_filter m ws : forall wi,
  multis_count0 m <> 0%Z -> multis_count1 m <> 0%Z ->
  match filter (ttest_emits (multis_count0 m) (multis_count1 m)) ws with
  | [] => done (ttest_advance Q m ws wi) = true
  | w :: rest =>
      done (ttest_advance Q m ws wi) = done wi /\
      current (ttest_advance Q m ws wi)
      = (window_region w, ttest_value Q (multis_count0 m) (multis_count1 m) w) /\
      exists ws2,
        data (ttest_advance Q m ws wi) = {| multi := with_windows m ws2 |} /\
        rest = filter (ttest_emits (multis_count0 m) (multis_count1 m)) ws2 /\
        (length ws2 < length ws)%nat
  end.
Proof.
  induction ws as [|w ws IH]; intros wi H1 H2; [reflexivity|].
  cbn [filter ttest_advance]. rewrite (ttest_emits_nonzero _ _ w H1 H2).
  destruct (qualifying w); cbn [andb negb].
  - destruct (degenerate _ _ w); cbn [negb].
    + specialize (IH (set_region wi w) H1 H2).
      destruct (filter _ ws) as [|w' rest]; [exact IH|].
      destruct IH as (Hd & Hc & ws2 & Hdata & Hrest & Hl).
      split; [exact Hd|]. split; [exact Hc|].
      exists ws2. repeat split; try assumption. cbn [length]. lia.
    + split; [reflexivity|]. split; [reflexivity|].
      exists ws. repeat split. cbn [length]. lia.
  - specialize (IH wi H1 H2).
    destruct (filter _ ws) as [|w' rest]; [exact IH|].
    destruct IH as (Hd & Hc & ws2 & Hdata & Hrest & Hl).
    split; [exact Hd|]. split; [exact Hc|].
    exists ws2. repeat split; try assumption. cbn [length]. lia.
Qed.

(** A pull comes back: fuel for two calls a window, and two more, is
    enough. *)
Lemma TTestReductionPop_total fuel wi :
  (2 * length (windows (multi (data wi))) + 2 <= fuel)%nat ->
  exists wi', Pop fuel wi = Some wi'.
Proof.
  intros Hf. destruct (done wi) eqn:Hd.
  - destruct fuel as [|fuel]; [lia|].
    rewrite TTestReductionPop_eq, Hd. eexists; reflexivity.
  - destruct (Z.eq_dec (multis_count0 (multi (data wi))) 0) as [Hz1|H1];
      [|destruct (Z.eq_dec (multis_count1 (multi (data wi))) 0) as [Hz2|H2]].
    1,2: destruct (proj2 (TTestReduction_zero_count fuel) wi Hd) as (wi' & Hp & _);
         [tauto | exact Hf | exists wi'; exact Hp].
    exists (ttest_advance Q (multi (data wi)) (windows (multi (data wi))) wi).
    apply TTestReductionPop_advance; try assumption; [|lia].
    destruct (data wi) as [[c c0 c1 ws]]. reflexivity.
Qed.

(** The records a consumer reads off the T-test. *)
Lemma pulls_TTestReduction n : forall fuel wi m ws,
  done wi = false ->
  data wi = {| multi := with_windows m ws |} ->
  (length ws < n)%nat ->
  (2 * length ws + 2 <= fuel)%nat ->
  pulls (Pop fuel) n wi = ttest_stream Q (multis_count0 m) (multis_count1 m) ws.
Proof.
  induction n as [|n IH]; intros fuel wi m ws Hd Hdata Hn Hf; [lia|].
  cbn [pulls]. unfold pop. rewrite Hd. unfold ttest_stream.
  destruct (Z.eq_dec (multis_count0 m) 0) as [Hz1|H1];
    [|destruct (Z.eq_dec (multis_count1 m) 0) as [Hz2|H2]].
  1,2: rewrite ttest_emits_zero by tauto;
       destruct (proj2 (TTestReduction_zero_count fuel) wi Hd) as (wi' & Hp & Hd');
       [rewrite Hdata; cbn; tauto | rewrite Hdata; cbn [multi with_windows windows]; lia|];
       rewrite Hp, Hd'; reflexivity.
  rewrite (TTestReductionPop_advance ws fuel wi m Hd Hdata H1 H2) by lia.
  pose proof (ttest_advance_filter m ws wi H1 H2) as Hadv.
  destruct (filter _ ws) as [|w rest].
  - rewrite Hadv. reflexivity.
  - destruct Hadv as (Hd' & Hc & ws2 & Hdata' & Hrest & Hl).
    rewrite Hd', Hd, Hc. cbn [map]. f_equal.
    rewrite (IH fuel _ m ws2); try assumption; try lia.
    + unfold ttest_stream. rewrite Hrest. reflexivity.
    + rewrite Hd'. exact Hd.
Qed.

End TTestFacts.

(** ** The T-test over the arithmetic of doubles, pull by pull *)

Section FloatingFacts.

Variable A : Floating.Arithmetic.
Variable Q : Floating.double A -> Floating.double A -> Floating.double A.
Variable indet : Floating.WiggleIterator A (Floating.SetComparisonData A) -> bool.

Local Abbreviation FPop2 := (Floating.TTestReductionPop2 A Q indet).
Local Abbreviation FPop := (Floating.TTestReductionPop A Q indet).
Local Abbreviation Fdata := (Floating.Build_SetComparisonData A).

Lemma floating_TTestReductionPop2_eq fuel wi :
  FPop2 (S fuel) wi =
  if Floating.done wi then Some (true, wi)
  else if Floating.multiset_done (Floating.multi (Floating.data wi))
  then Some (true, Floating.set_done wi)
  else
    let m := Floating.multi (Floating.data wi) in
    match Floating.skip_windows (Floating.windows m) with
    | [] => Some (true, Floating.set_done
                          (Floating.set_data wi (Fdata (Floating.with_windows m []))))
    | w :: ws =>
        let m := Floating.with_windows m (w :: ws) in
        let wi := Floating.set_region wi w in
        let count1 := Floating.multis_count0 m in
        let count2 := Floating.multis_count1 m in
        let (sum1, sumSq1) :=
          Floating.accumulate A (Floating.multis_count0 m)
            (Floating.w_multis_inplay0 w) (Floating.w_values0 w) in
        let (sum2, sumSq2) :=
          Floating.accumulate A (Floating.multis_count1 m)
            (Floating.w_multis_inplay1 w) (Floating.w_values1 w) in
        if (count1 =? 0)%Z || (count2 =? 0)%Z then
          match Floating.pop (FPop fuel)
                  (Floating.set_data wi (Fdata (Floating.popMultiset m))) with
          | None => None
          | Some wi' => Some (indet wi', wi')
          end
        else
          let mean1 := Floating.div A sum1 (Floating.of_int A count1) in
          let mean2 := Floating.div A sum2 (Floating.of_int A count2) in
          let meanSq1 := Floating.div A sumSq1 (Floating.of_int A count1) in
          let meanSq2 := Floating.div A sumSq2 (Floating.of_int A count2) in
          let var1 := Floating.sub A meanSq1 (Floating.mul A mean1 mean1) in
          let var2 := Floating.sub A meanSq2 (Floating.mul A mean2 mean2) in
          if Floating.eqb A (Floating.add A var1 var2) (Floating.of_int A 0) then
            Some (false, Floating.set_data wi (Fdata (Floating.popMultiset m)))
          else
            let t := Floating.t_of A mean1 mean2 var1 var2 count1 count2 in
            let nu := Floating.nu_of A var1 var2 count1 count2 in
            Some (true,
                  Floating.set_data
                    (Floating.set_value wi
                       (Floating.mul A (Floating.of_int A 2) (Q t nu)))
                    (Fdata (Floating.popMultiset m)))
    end.
Proof. reflexivity. Qed.

Lemma floating_TTestReductionPop_eq fuel wi :
  FPop (S fuel) wi =
  if Floating.done wi then Some wi
  else
    match FPop2 fuel wi with
    | None => None
    | Some (true, wi') => Some wi'
    | Some (false, wi') => FPop fuel wi'
    end.
Proof. reflexivity. Qed.

(** A window that does not qualify is passed over. *)
Lemma floating_TTestReductionPop2_skip fuel wi m w ws :
  Floating.done wi = false ->
  Floating.data wi = Fdata (Floating.with_windows m (w :: ws)) ->
  Floating.qualifying w = false ->
  FPop2 (S fuel) wi
  = FPop2 (S fuel) (Floating.set_data wi (Fdata (Floating.with_windows m ws))).
Proof.
  intros Hd Hdata Hq.
  rewrite !floating_TTestReductionPop2_eq. cbn [Floating.set_data Floating.done Floating.data].
  rewrite Hd, Hdata.
  cbn [Floating.multi Floating.multiset_done Floating.with_windows Floating.windows
       Floating.skip_windows].
  assert (Hn : negb (Floating.w_inplay0 w) || negb (Floating.w_inplay1 w) = true).
  { unfold Floating.qualifying in Hq.
    destruct (Floating.w_inplay0 w), (Floating.w_inplay1 w); easy. }
  rewrite Hn.
  destruct ws as [|w' ws']; [reflexivity|].
  cbn [Floating.multiset_done Floating.windows].
  destruct (Floating.skip_windows (w' :: ws')); reflexivity.
Qed.

(** The input has run out. *)
Lemma floating_TTestReductionPop2_exhausted fuel wi m :
  Floating.done wi = false ->
  Floating.data wi = Fdata (Floating.with_windows m []) ->
  FPop2 (S fuel) wi = Some (true, Floating.set_done wi).
Proof.
  intros Hd Hdata. rewrite floating_TTestReductionPop2_eq, Hd, Hdata. reflexivity.
Qed.

(** A qualifying window of groups that have replicates: the window is dropped
    when the test of line 115 finds the computed variances adding up to zero,
    published otherwise. *)
Lemma floating_TTestReductionPop2_qualifying fuel wi m w ws :
  Floating.done wi = false ->
  Floating.data wi = Fdata (Floating.with_windows m (w :: ws)) ->
  Floating.qualifying w = true ->
  Floating.multis_count0 m <> 0%Z -> Floating.multis_count1 m <> 0%Z ->
  FPop2 (S fuel) wi
  = Some (if Floating.degenerate A (Floating.multis_count0 m) (Floating.multis_count1 m) w
          then (false,
                Floating.set_data (Floating.set_region wi w)
                  (Fdata (Floating.with_windows m ws)))
          else (true,
                Floating.set_data
                  (Floating.set_value (Floating.set_region wi w)
                     (Floating.ttest_value A Q
                        (Floating.multis_count0 m) (Floating.multis_count1 m) w))
                  (Fdata (Floating.with_windows m ws)))).
Proof.
  intros Hd Hdata Hq H1 H2.
  rewrite floating_TTestReductionPop2_eq, Hd, Hdata.
  cbn [Floating.multi Floating.multiset_done Floating.with_windows Floating.windows
       Floating.skip_windows].
  assert (Hn : negb (Floating.w_inplay0 w) || negb (Floating.w_inplay1 w) = false).
  { unfold Floating.qualifying in Hq.
    destruct (Floating.w_inplay0 w), (Floating.w_inplay1 w); easy. }
  rewrite Hn.
  cbv zeta.
  cbn [Floating.with_windows Floating.multis_count0 Floating.multis_count1
       Floating.popMultiset Floating.windows tl Floating.count].
  unfold Floating.degenerate, Floating.var_sum, Floating.ttest_value, Floating.ttest_nu,
    Floating.group_var, Floating.group_mean.
  destruct (Floating.accumulate A (Floating.multis_count0 m)
              (Floating.w_multis_inplay0 w) (Floating.w_values0 w)) as [sum1 sumSq1].
  destruct (Floating.accumulate A (Floating.multis_count1 m)
              (Floating.w_multis_inplay1 w) (Floating.w_values1 w)) as [sum2 sumSq2].
  apply Z.eqb_neq in H1, H2. rewrite H1, H2. cbn [orb fst snd].
  destruct (Floating.eqb A _ _); reflexivity.
Qed.

Lemma floating_ttest_advance_set_data m ws : forall wi d,
  Floating.ttest_advance A Q m ws (Floating.set_data wi d)
  = Floating.ttest_advance A Q m ws wi.
Proof.
  induction ws as [|w ws IH]; intros wi d; cbn [Floating.ttest_advance]; [reflexivity|].
  destruct (Floating.qualifying w); [|apply IH].
  destruct (Floating.degenerate A _ _ w); [|reflexivity].
  apply (IH (Floating.set_region wi w) d).
Qed.

(** One pull, both groups having replicates. *)
Lemma floating_TTestReductionPop_advance ws : forall fuel wi m,
  Floating.done wi = false ->
  Floating.data wi = Fdata (Floating.with_windows m ws) ->
  Floating.multis_count0 m <> 0%Z -> Floating.multis_count1 m <> 0%Z ->
  (length ws + 2 <= fuel)%nat ->
  FPop fuel wi = Some (Floating.ttest_advance A Q m ws wi).
Proof.
  induction ws as [|w ws IH]; intros fuel wi m Hd Hdata H1 H2 Hf.
  - destruct fuel as [|[|fuel]]; cbn [length] in Hf; try lia.
    rewrite floating_TTestReductionPop_eq, Hd.
    rewrite (floating_TTestReductionPop2_exhausted _ wi m Hd Hdata).
    cbn [Floating.ttest_advance]. destruct wi; cbn in *. subst. reflexivity.
  - destruct fuel as [|[|fuel]]; cbn [length] in Hf; try lia.
    rewrite floating_TTestReductionPop_eq, Hd.
    destruct (Floating.qualifying w) eqn:Hq.
    + rewrite (floating_TTestReductionPop2_qualifying _ wi m w ws Hd Hdata Hq H1 H2).
      cbn [Floating.ttest_advance]. rewrite Hq.
      destruct (Floating.degenerate A (Floating.multis_count0 m)
                  (Floating.multis_count1 m) w); [|reflexivity].
      rewrite <- (floating_ttest_advance_set_data m ws (Floating.set_region wi w)
                    (Fdata (Floating.with_windows m ws))).
      apply IH; try assumption; try reflexivity. lia.
    + cbn [Floating.ttest_advance]. rewrite Hq.
      rewrite <- (floating_ttest_advance_set_data m ws wi
                    (Fdata (Floating.with_windows m ws))).
      transitivity (FPop (S (S fuel))
                      (Floating.set_data wi (Fdata (Floating.with_windows m ws)))).
      * rewrite floating_TTestReductionPop_eq. cbn [Floating.set_data Floating.done].
        rewrite Hd.
        rewrite (floating_TTestReductionPop2_skip _ wi m w ws Hd Hdata Hq). reflexivity.
      * apply IH; try assumption; try reflexivity. lia.
Qed.

(** Where one pull leaves the iterator: done when no window is left to
    publish, on the first such window otherwise. *)
Lemma floating_ttest_advance_filter m ws : forall wi,
  match filter (Floating.ttest_emits A (Floating.multis_count0 m)
                  (Floating.multis_count1 m)) ws with
  | [] => Floating.done (Floating.ttest_advance A Q m ws wi) = true
  | w :: rest =>
      Floating.done (Floating.ttest_advance A Q m ws wi) = Floating.done wi /\
      Floating.current (Floating.ttest_advance A Q m ws wi)
      = (Floating.window_region w,
         Floating.ttest_value A Q (Floating.multis_count0 m) (Floating.multis_count1 m) w) /\
      exists ws2,
        Floating.data (Floating.ttest_advance A Q m ws wi)
        = Fdata (Floating.with_windows m ws2) /\
        rest = filter (Floating.ttest_emits A (Floating.multis_count0 m)
                         (Floating.multis_count1 m)) ws2 /\
        (length ws2 < length ws)%nat
  end.
Proof.
  induction ws as [|w ws IH]; intros wi; [reflexivity|].
  cbn [filter Floating.ttest_advance]. unfold Floating.ttest_emits at 1.
  destruct (Floating.qualifying w); cbn [andb negb].
  - destruct (Floating.degenerate A _ _ w); cbn [negb].
    + specialize (IH (Floating.set_region wi w)).
      destruct (filter _ ws) as [|w' rest]; [exact IH|].
      destruct IH as (Hd & Hc & ws2 & Hdata & Hrest & Hl).
      split; [exact Hd|]. split; [exact Hc|].
      exists ws2. repeat split; try assumption. cbn [length]. lia.
    + split; [reflexivity|]. split; [reflexivity|].
      exists ws. repeat split. cbn [length]. lia.
  - specialize (IH wi).
    destruct (filter _ ws) as [|w' rest]; [exact IH|].
    destruct IH as (Hd & Hc & ws2 & Hdata & Hrest & Hl).
    split; [exact Hd|]. split; [exact Hc|].
    exists ws2. repeat split; try assumption. cbn [length]. lia.
Qed.

(** The records a consumer reads off the T-test, both groups having
    replicates. *)
Lemma floating_pulls_TTestReduction n : forall fuel wi m ws,
  Floating.done wi = false ->
  Floating.data wi = Fdata (Floating.with_windows m ws) ->
  Floating.multis_count0 m <> 0%Z -> Floating.multis_count1 m <> 0%Z ->
  (length ws < n)%nat ->
  (length ws + 2 <= fuel)%nat ->
  Floating.pulls (FPop fuel) n wi
  = Floating.ttest_stream A Q (Floating.multis_count0 m) (Floating.multis_count1 m) ws.
Proof.
  induction n as [|n IH]; intros fuel wi m ws Hd Hdata H1 H2 Hn Hf; [lia|].
  cbn [Floating.pulls]. unfold Floating.pop. rewrite Hd. unfold Floating.ttest_stream.
  rewrite (floating_TTestReductionPop_advance ws fuel wi m Hd Hdata H1 H2) by lia.
  pose proof (floating_ttest_advance_filter m ws wi) as Hadv.
  destruct (filter _ ws) as [|w rest].
  - rewrite Hadv. reflexivity.
  - destruct Hadv as (Hd' & Hc & ws2 & Hdata' & Hrest & Hl).
    rewrite Hd', Hd, Hc. cbn [map]. f_equal.
    rewrite (IH fuel _ m ws2); try assumption; try lia.
    + unfold Floating.ttest_stream. rewrite Hrest. reflexivity.
    + rewrite Hd'. exact Hd.
Qed.

End FloatingFacts.

(** The sums of the T-test over an open arithmetic. *)
Lemma floating_accumulate_from (A : Floating.Arithmetic) fl : forall pre_f pre_v vs acc,
  length pre_f = length pre_v -> length fl = length vs ->
  fold_left (Floating.accumulate_step A (pre_f ++ fl) (pre_v ++ vs))
    (seq (length pre_f) (length fl)) acc
  = (fold_left (Floating.add A) (Floating.inplay_values A fl vs) (fst acc),
     fold_left (fun q v => Floating.add A q (Floating.mul A v v))
       (Floating.inplay_values A fl vs) (snd acc)).
Proof.
  induction fl as [|b fl IH]; intros pre_f pre_v vs acc Hp Hl.
  - destruct vs; [|discriminate]. destruct acc; reflexivity.
  - destruct vs as [|x vs]; [discriminate|]. injection Hl as Hl.
    cbn [length seq fold_left].
    assert (Hb : nth (length pre_f) (pre_f ++ b :: fl) false = b) by apply nth_middle.
    assert (Hx : nth (length pre_f) (pre_v ++ x :: vs) (Floating.of_int A 0) = x)
      by (rewrite Hp; apply nth_middle).
    unfold Floating.accumulate_step at 2. rewrite Hb, Hx.
    specialize (IH (pre_f ++ [b]) (pre_v ++ [x]) vs).
    rewrite <- !app_assoc in IH. cbn [app] in IH.
    rewrite !length_app in IH. cbn [length] in IH.
    replace (length pre_f + 1)%nat with (S (length pre_f)) in IH by lia.
    rewrite IH by (try lia).
    unfold Floating.inplay_values. cbn [combine filter fst].
    destruct b; reflexivity.
Qed.

(** The loops of lines 86 to 98 add up the values in play and their
    squares, from the left, starting from the int zero. *)
Lemma floating_accumulate_sums (A : Floating.Arithmetic) n fl vs :
  Z.of_nat (length fl) = n -> Z.of_nat (length vs) = n ->
  Floating.accumulate A n fl vs
  = (fold_left (Floating.add A) (Floating.inplay_values A fl vs) (Floating.of_int A 0),
     fold_left (fun q v => Floating.add A q (Floating.mul A v v))
       (Floating.inplay_values A fl vs) (Floating.of_int A 0)).
Proof.
  intros Hf Hv. unfold Floating.accumulate. subst n. rewrite Nat2Z.id.
  apply (floating_accumulate_from A fl [] [] vs); [reflexivity | lia].
Qed.

(** At the reals the T-test over an open arithmetic is the T-test of the
    first part. *)
Lemma reals_degenerate c1 c2 w :
  Floating.degenerate reals c1 c2 (on_reals w) = degenerate c1 c2 w.
Proof. reflexivity. Qed.

Lemma reals_ttest_value Q c1 c2 w :
  Floating.ttest_value reals Q c1 c2 (on_reals w) = ttest_value Q c1 c2 w.
Proof. reflexivity. Qed.

Lemma reals_ttest_stream Q c1 c2 ws :
  c1 <> 0%Z -> c2 <> 0%Z ->
  Floating.ttest_stream reals Q c1 c2 (map on_reals ws) = ttest_stream Q c1 c2 ws.
Proof.
  intros H1 H2. unfold Floating.ttest_stream, ttest_stream.
  induction ws as [|w ws IH]; [reflexivity|].
  cbn [map filter]. rewrite (ttest_emits_nonzero c1 c2 w H1 H2).
  unfold Floating.ttest_emits at 1. rewrite reals_degenerate.
  change (Floating.qualifying (on_reals w)) with (qualifying w).
  destruct (qualifying w && negb (degenerate c1 c2 w)); cbn [map]; rewrite IH; reflexivity.
Qed.

Lemma reals_pulls Q indet indet' n fuel wi wi' m m' ws :
  done wi = false -> data wi = {| multi := with_windows m ws |} ->
  Floating.done wi' = false ->
  Floating.data wi'
  = Floating.Build_SetComparisonData reals (Floating.with_windows m' (map on_reals ws)) ->
  Floating.multis_count0 m' = multis_count0 m ->
  Floating.multis_count1 m' = multis_count1 m ->
  multis_count0 m <> 0%Z -> multis_count1 m <> 0%Z ->
  (length ws < n)%nat -> (2 * length ws + 2 <= fuel)%nat ->
  Floating.pulls (Floating.TTestReductionPop reals Q indet' fuel) n wi'
  = pulls (TTestReductionPop Q indet fuel) n wi.
Proof.
  intros Hd Hdata Hd' Hdata' Hc0 Hc1 H0 H1 Hn Hf.
  rewrite (pulls_TTestReduction Q indet n fuel wi m ws Hd Hdata Hn Hf).
  rewrite (floating_pulls_TTestReduction reals Q indet' n fuel wi' m' (map on_reals ws)
             Hd' Hdata')
    by (rewrite ?length_map; congruence || lia).
  rewrite Hc0, Hc1. apply reals_ttest_stream; assumption.
Qed.

(** ** The Mann-Whitney reducer, pull by pull *)

Lemma filter_qualifying_skip ws :
  filter qualifying ws
  = match skip_windows ws with
    | [] => []
    | w :: ws' => w :: filter qualifying ws'
    end.
Proof.
  induction ws as [|w ws IH]; [reflexivity|].
  cbn [filter skip_windows]. unfold qualifying at 1.
  destruct (w_inplay0 w), (w_inplay1 w); cbn [andb negb orb]; try exact IH.
  reflexivity.
Qed.

Section MWUFacts.

Variable erf : R -> R.
Variable qsort :
  (ValueSetPair -> ValueSetPair -> Z) -> list ValueSetPair -> list ValueSetPair.

(** One step of the Mann-Whitney reducer always reports a result: the
    iterator is done when no qualifying window is left, and stands on the
    first qualifying window otherwise, whatever its values are. *)
Lemma MWUReductionPop2_spec wi :
  done wi = false ->
  exists wi',
    MWUReductionPop2 erf qsort wi = (true, wi') /\
    match skip_windows (windows (mwu_multi (data wi))) with
    | [] => done wi' = true
    | w :: ws' =>
        done wi' = false /\
        region wi' = window_region w /\
        windows (mwu_multi (data wi')) = ws' /\
        rankingTable (data wi') = mwu_table qsort (data wi) w /\
        value wi'
        = mwu_value erf (data wi)
            (rank_sum (N (data wi)) (n1 (data wi)) (mwu_table qsort (data wi) w))
            (value wi)
    end.
Proof.
  intros Hd. unfold MWUReductionPop2. rewrite Hd.
  unfold multiset_done.
  destruct (windows (mwu_multi (data wi))) as [|w0 ws0] eqn:Hw.
  - eexists; split; [reflexivity|]. reflexivity.
  - destruct (skip_windows (w0 :: ws0)) as [|w ws'] eqn:Hs.
    + eexists; split; [reflexivity|]. reflexivity.
    + eexists; split; [reflexivity|].
      cbn. rewrite Hd. repeat split; reflexivity.
Qed.

Lemma MWUReductionPop_once fuel wi :
  done wi = false ->
  MWUReductionPop erf qsort (S fuel) wi = Some (snd (MWUReductionPop2 erf qsort wi)).
Proof.
  intros Hd. cbn [MWUReductionPop]. rewrite Hd.
  destruct (MWUReductionPop2_spec wi Hd) as (wi' & Hp & _).
  rewrite Hp. reflexivity.
Qed.

(** The windows a consumer reads off the Mann-Whitney reducer. *)
Lemma pulls_MWUReduction n : forall fuel wi,
  done wi = false ->
  (length (windows (mwu_multi (data wi))) < n)%nat ->
  map fst (pulls (MWUReductionPop erf qsort (S fuel)) n wi)
  = map window_region (filter qualifying (windows (mwu_multi (data wi)))).
Proof.
  induction n as [|n IH]; intros fuel wi Hd Hn; [lia|].
  cbn [pulls]. unfold pop. rewrite Hd, (MWUReductionPop_once fuel wi Hd).
  destruct (MWUReductionPop2_spec wi Hd) as (wi' & Hp & Hs).
  rewrite Hp. cbn [snd].
  rewrite filter_qualifying_skip.
  pose proof (skip_windows_shorter (windows (mwu_multi (data wi)))) as Hl.
  destruct (skip_windows (windows (mwu_multi (data wi)))) as [|w ws'].
  - rewrite Hs. reflexivity.
  - destruct Hs as (Hd' & Hr & Hw & _).
    destruct (Hl w ws' eq_refl) as [_ Hlen].
    rewrite Hd'. cbn [map fst current]. rewrite Hr. f_equal.
    rewrite (IH fuel wi' Hd'); [rewrite Hw; reflexivity | rewrite Hw; lia].
Qed.

End MWUFacts.

(** ** Construction *)

Lemma wf_counts_add (multi : Multiset) :
  wf_counts multi ->
  CInt.add (multis_count0 multi) (multis_count1 multi)
  = (multis_count0 multi + multis_count1 multi)%Z.
Proof.
  intros H. apply wrap_in_range. exact H.
Qed.

(** C7. On a synchroniser whose replicates are counted by an int,
    [TTestReduction] ends the process exactly when there are not two groups or fewer than
    three replicates in all, and [MWUReduction] exactly when there are not
    two groups or one group is empty; in every other case the iterator comes
    back with every field of its data set: the synchroniser, the counts, the
    zeroed ranking table, the flag of the normal approximation and its two
    constants.  On the fatal path nothing comes back. *)
Theorem construction_validation (multi : Multiset) :
  wf_counts multi ->
  ((exists message, TTestReduction multi = Fatal message)
   <-> (count multi <> 2 \/ multis_count0 multi + multis_count1 multi < 3)%Z)
  /\
  ((exists message, MWUReduction multi = Fatal message)
   <-> (count multi <> 2 \/ multis_count0 multi = 0 \/ multis_count1 multi = 0)%Z)
  /\
  (~ (count multi <> 2 \/ multis_count0 multi + multis_count1 multi < 3)%Z ->
   TTestReduction multi = Ready (newWiggleIterator {| multi := multi |}))
  /\
  (~ (count multi <> 2 \/ multis_count0 multi = 0 \/ multis_count1 multi = 0)%Z ->
   exists d,
     MWUReduction multi = Ready (newWiggleIterator d) /\
     mwu_multi d = multi /\
     n1 d = multis_count0 multi /\
     n2 d = multis_count1 multi /\
     N d = (multis_count0 multi + multis_count1 multi)%Z /\
     length (rankingTable d) = Z.to_nat (N d) /\
     normalApproximation d = true /\
     rankingTable d = repeat vsp_zero (Z.to_nat (N d)) /\
     mu_U d = IZR (CInt.div (CInt.mul (n1 d) (n2 d)) 2) /\
     sigma_U d
     = sqrt (IZR (CInt.div
                    (CInt.mul (CInt.mul (n1 d) (n2 d)) (CInt.add (CInt.add (n1 d) (n2 d)) 1))
                    12))).
Proof.
  intros Hwf. pose proof (wf_counts_add multi Hwf) as Hadd.
  unfold TTestReduction, MWUReduction. rewrite Hadd.
  destruct (Z.eqb_spec (count multi) 2) as [Hc|Hc]; cbn [negb orb].
  - destruct (Z.ltb_spec (multis_count0 multi + multis_count1 multi) 3) as [Hs|Hs];
      destruct (Z.eqb_spec (multis_count0 multi) 0) as [Hz0|Hz0];
      destruct (Z.eqb_spec (multis_count1 multi) 0) as [Hz1|Hz1];
      cbn [orb];
      (split; [split; [intros [? H]; try discriminate H; lia | intros; try lia; eauto]|]);
      (split; [split; [intros [? H]; try discriminate H; lia | intros; try lia; eauto]|]);
      (split; [intros; try lia; reflexivity|]);
      intros Hn; try (exfalso; lia);
      (eexists; split; [reflexivity|]);
      cbn [mwu_multi n1 n2 N rankingTable normalApproximation mu_U sigma_U];
      rewrite ?Hadd;
      repeat split; rewrite ?repeat_length; lia.
  - split; [split; [lia | eauto]|].
    split; [split; [lia | eauto]|].
    split; intros Hn; exfalso; apply Hn; left; exact Hc.
Qed.

Lemma construction_validation_witness :
  ((exists message, TTestReduction (mkMultiset 3 2 [worked_window]) = Fatal message)
   <-> (2 <> 2 \/ 3 + 2 < 3)%Z)
  /\
  ((exists message, MWUReduction (mkMultiset 3 2 [worked_window]) = Fatal message)
   <-> (2 <> 2 \/ 3 = 0 \/ 2 = 0)%Z)
  /\
  (~ (2 <> 2 \/ 3 + 2 < 3)%Z ->
   TTestReduction (mkMultiset 3 2 [worked_window])
   = Ready (newWiggleIterator {| multi := mkMultiset 3 2 [worked_window] |}))
  /\
  (~ (2 <> 2 \/ 3 = 0 \/ 2 = 0)%Z ->
   exists d,
     MWUReduction (mkMultiset 3 2 [worked_window]) = Ready (newWiggleIterator d) /\
     mwu_multi d = mkMultiset 3 2 [worked_window] /\
     n1 d = 3%Z /\ n2 d = 2%Z /\ N d = (3 + 2)%Z /\
     length (rankingTable d) = Z.to_nat (N d) /\
     normalApproximation d = true /\
     rankingTable d = repeat vsp_zero (Z.to_nat (N d)) /\
     mu_U d = IZR (CInt.div (CInt.mul (n1 d) (n2 d)) 2) /\
     sigma_U d
     = sqrt (IZR (CInt.div
                    (CInt.mul (CInt.mul (n1 d) (n2 d)) (CInt.add (CInt.add (n1 d) (n2 d)) 1))
                    12))).
Proof.
  apply (construction_validation (mkMultiset 3 2 [worked_window])).
  unfold wf_counts, CInt.in_range, CInt.INT_MIN, CInt.INT_MAX. simpl. lia.
Defined.

(** C10. Two groups with three replicates between them, counted by an int,
    are enough for [TTestReduction], also when one of the groups has none. *)
Theorem TTestReduction_accepts_empty_group (multi : Multiset) :
  wf_counts multi ->
  count multi = 2%Z ->
  (3 <= multis_count0 multi + multis_count1 multi)%Z ->
  TTestReduction multi = Ready (newWiggleIterator {| multi := multi |}).
Proof.
  intros Hwf Hc Hs. unfold TTestReduction.
  rewrite (wf_counts_add multi Hwf), Hc.
  destruct (Z.ltb_spec (multis_count0 multi + multis_count1 multi) 3); [lia|].
  reflexivity.
Qed.

Lemma TTestReduction_accepts_empty_group_witness :
  TTestReduction (mkMultiset 0 3 [])
  = Ready (newWiggleIterator {| multi := mkMultiset 0 3 [] |}).
Proof.
  apply (TTestReduction_accepts_empty_group (mkMultiset 0 3 [])).
  - unfold wf_counts, CInt.in_range, CInt.INT_MIN, CInt.INT_MAX. simpl. lia.
  - reflexivity.
  - simpl. lia.
Defined.

(** C3. With one replicate in each group the constants [MWUReduction]
    stores are [mu_U = 0] and [sigma_U = 0]: the divisions by 2 and by 12 are
    integer divisions.  The formulas [n1 n2 / 2] and
    [sqrt (n1 n2 (n1 + n2 + 1) / 12)] give one half for both. *)
Theorem MWUReduction_constants_truncated (ws : list Window) :
  exists d,
    MWUReduction (mkMultiset 1 1 ws) = Ready (newWiggleIterator d) /\
    mu_U d = 0%R /\ sigma_U d = 0%R /\
    (IZR 1 * IZR 1 / 2 = 1 / 2)%R /\
    (sqrt (IZR 1 * IZR 1 * (IZR 1 + IZR 1 + 1) / 12) = 1 / 2)%R /\
    mu_U d <> (IZR 1 * IZR 1 / 2)%R /\
    sigma_U d <> sqrt (IZR 1 * IZR 1 * (IZR 1 + IZR 1 + 1) / 12).
Proof.
  eexists. split; [reflexivity|].
  cbn [mu_U sigma_U multis_count0 multis_count1 mkMultiset].
  change (CInt.div (CInt.mul 1 1) 2) with 0%Z.
  change (CInt.div (CInt.mul (CInt.mul 1 1) (CInt.add (CInt.add 1 1) 1)) 12) with 0%Z.
  assert (Hs : (sqrt (IZR 1 * IZR 1 * (IZR 1 + IZR 1 + 1) / 12) = 1 / 2)%R).
  { replace (IZR 1 * IZR 1 * (IZR 1 + IZR 1 + 1) / 12)%R with ((1 / 2) * (1 / 2))%R by lra.
    apply sqrt_square. lra. }
  rewrite sqrt_0, Hs.
  repeat split; lra.
Qed.

(** ** The rank scan on small tables *)

Lemma look_next_O total table index2 v t :
  look_next total table 0 index2 v t = t.
Proof. reflexivity. Qed.

Lemma look_next_S total table steps index2 v t :
  look_next total table (S steps) index2 v t =
  if (index2 <? total)%Z && Double.eqb (vsp_value (entry table index2)) v
  then look_next total table steps (CInt.add index2 1) v
         (if vsp_set (entry table index2) then CInt.add t 1 else t)
  else t.
Proof. reflexivity. Qed.

Lemma look_previous_O total table index2 v t :
  look_previous total table 0 index2 v t = t.
Proof. reflexivity. Qed.

Lemma look_previous_S total table steps index2 v t :
  look_previous total table (S steps) index2 v t =
  if (index2 <? total)%Z
     && Double.eqb (vsp_value (entry table index2)) v
     && vsp_set (entry table index2)
  then look_previous total table steps (CInt.add index2 1) v (CInt.add t 1)
  else t.
Proof. reflexivity. Qed.

Lemma scan_O total group1 table index st :
  scan total group1 table 0 index st = st.
Proof. reflexivity. Qed.

Lemma scan_S total group1 table steps index st :
  scan total group1 table (S steps) index st =
  if (index <? total)%Z && (prev st <? group1)%Z then
    scan total group1 table steps (CInt.add index 1)
      (if negb (vsp_set (entry table index)) then scan_set1 total table index st else st)
  else st.
Proof. reflexivity. Qed.

Ltac is_literal z :=
  lazymatch z with Z0 => idtac | Zpos _ => idtac | Zneg _ => idtac end.

Ltac crunch t := let v := eval vm_compute in t in change t with v.

(** Integer operations on literals are computed. *)
Ltac eval_ints :=
  repeat match goal with
  | |- context [CInt.add ?a ?b] => is_literal a; is_literal b; crunch (CInt.add a b)
  | |- context [CInt.sub ?a ?b] => is_literal a; is_literal b; crunch (CInt.sub a b)
  | |- context [(?a <? ?b)%Z] => is_literal a; is_literal b; crunch (a <? b)%Z
  | |- context [(?a =? ?b)%Z] => is_literal a; is_literal b; crunch (a =? b)%Z
  | |- context [Z.to_nat ?a] => is_literal a; crunch (Z.to_nat a)
  end.

(** One step of a loop of the rank scan, on a table whose values are equal
    as terms wherever the scan compares them. *)
Ltac scan_step :=
  first
  [ rewrite look_previous_O
  | rewrite look_next_O
  | rewrite look_previous_S
  | rewrite look_next_S
  | rewrite scan_O
  | rewrite scan_S; unfold scan_set1 ];
  unfold entry; eval_ints;
  cbn [nth of_set1 of_set2 vsp_value vsp_set U1 prev ties previousTies];
  rewrite ?eqb_refl; eval_ints;
  cbn [andb negb orb];
  eval_ints; cbn [andb negb orb U1 prev ties previousTies].

Ltac run_scan := unfold rank_sum; eval_ints; repeat scan_step.

(** C2. Two entries of set 1 and one of set 2, all three of the same value:
    the table the reducer fills is [set 1, set 1, set 2], a sort may hand it
    back in any of three arrangements, and the scan gives 0, 2 and 2 on
    them, never [n1 n2 / 2 = 1].  With one entry of each set the scan gives
    one half when the entry of set 1 comes first and 1 when it comes
    second. *)
Theorem rank_sum_all_tied (v : R) :
  populate 2 [true; true] [v; v] false ++ populate 1 [true] [v] true
  = [of_set1 v; of_set1 v; of_set2 v] /\
  rank_sum 3 2 [of_set1 v; of_set1 v; of_set2 v] = 0%R /\
  rank_sum 3 2 [of_set1 v; of_set2 v; of_set1 v] = 2%R /\
  rank_sum 3 2 [of_set2 v; of_set1 v; of_set1 v] = 2%R /\
  (IZR 2 * IZR 1 / 2 = 1)%R /\
  rank_sum 2 1 [of_set1 v; of_set2 v] = (1 / 2)%R /\
  rank_sum 2 1 [of_set2 v; of_set1 v] = 1%R /\
  (IZR 1 * IZR 1 / 2 = 1 / 2)%R.
Proof.
  split; [reflexivity|].
  split; [run_scan; lra|].
  split; [run_scan; lra|].
  split; [run_scan; lra|].
  split; [lra|].
  split; [run_scan; lra|].
  split; [run_scan; lra|].
  lra.
Qed.

(** ** What the Mann-Whitney reducer publishes *)

(** C8. The Mann-Whitney reducer publishes one record for every qualifying
    window, whatever the values, the ties and the constants of the reducer
    are: a step that finds the synchroniser on a qualifying window reports
    that window and moves the synchroniser on by one, and the regions a
    consumer reads are those of the qualifying windows, in order. *)
Theorem MWUReduction_emits_every_qualifying_window
    (erf : R -> R)
    (qsort : (ValueSetPair -> ValueSetPair -> Z) -> list ValueSetPair -> list ValueSetPair)
    (fuel n : nat) (wi : WiggleIterator MWUData) :
  done wi = false ->
  (length (windows (mwu_multi (data wi))) < n)%nat ->
  (forall w ws,
     windows (mwu_multi (data wi)) = w :: ws ->
     qualifying w = true ->
     exists wi',
       MWUReductionPop2 erf qsort wi = (true, wi') /\
       done wi' = false /\
       region wi' = window_region w /\
       windows (mwu_multi (data wi')) = ws)
  /\
  map fst (pulls (MWUReductionPop erf qsort (S fuel)) n wi)
  = map window_region (filter qualifying (windows (mwu_multi (data wi)))).
Proof.
  intros Hd Hn. split; [|apply pulls_MWUReduction; assumption].
  intros w ws Hw Hq.
  destruct (MWUReductionPop2_spec erf qsort wi Hd) as (wi' & Hp & Hs).
  rewrite Hw in Hs. cbn [skip_windows] in Hs.
  assert (Hf : negb (w_inplay0 w) || negb (w_inplay1 w) = false).
  { unfold qualifying in Hq. destruct (w_inplay0 w), (w_inplay1 w); easy. }
  rewrite Hf in Hs. destruct Hs as (Hd' & Hr & Hws & _).
  exists wi'. repeat split; assumption.
Qed.

Lemma MWUReduction_emits_every_qualifying_window_witness :
  (forall w ws,
     windows (mwu_multi (data (mwu_iterator 2 2 [ranked_window; constant_window])))
     = w :: ws ->
     qualifying w = true ->
     exists wi',
       MWUReductionPop2 erf_stub qsort_keep
         (mwu_iterator 2 2 [ranked_window; constant_window]) = (true, wi') /\
       done wi' = false /\
       region wi' = window_region w /\
       windows (mwu_multi (data wi')) = ws)
  /\
  map fst (pulls (MWUReductionPop erf_stub qsort_keep 1) 3
             (mwu_iterator 2 2 [ranked_window; constant_window]))
  = map window_region
      (filter qualifying
         (windows (mwu_multi (data (mwu_iterator 2 2 [ranked_window; constant_window]))))).
Proof.
  apply (MWUReduction_emits_every_qualifying_window erf_stub qsort_keep 0 3
           (mwu_iterator 2 2 [ranked_window; constant_window])).
  - reflexivity.
  - simpl. lia.
Defined.

(** C9. With [sigma_U > 0], and an error function that is negative below
    zero and zero at zero, the value of a published record is twice the error
    function of a number that is not positive: it is never positive, and it
    is zero exactly when the rank sum is [mu_U]. *)
Theorem MWUReduction_value_nonpositive
    (erf : R -> R)
    (qsort : (ValueSetPair -> ValueSetPair -> Z) -> list ValueSetPair -> list ValueSetPair)
    (wi wi' : WiggleIterator MWUData) :
  (forall x, (x < 0)%R -> (erf x < 0)%R) ->
  erf 0%R = 0%R ->
  done wi = false ->
  normalApproximation (data wi) = true ->
  (0 < sigma_U (data wi))%R ->
  MWUReductionPop2 erf qsort wi = (true, wi') ->
  done wi' = false ->
  (value wi' <= 0)%R /\
  (value wi' = 0%R
   <-> rank_sum (N (data wi)) (n1 (data wi)) (rankingTable (data wi'))
       = mu_U (data wi)) /\
  (exists x, (x <= 0)%R /\ value wi' = (2 * erf x)%R).
Proof.
  intros Hneg H0 Hd Hna Hsig Hp Hd'.
  destruct (MWUReductionPop2_spec erf qsort wi Hd) as (wi2 & Hp2 & Hs).
  rewrite Hp in Hp2. injection Hp2 as <-.
  destruct (skip_windows (windows (mwu_multi (data wi)))) as [|w ws];
    [rewrite Hs in Hd'; discriminate|].
  destruct Hs as (_ & _ & _ & Ht & Hv).
  rewrite Ht, Hv. unfold mwu_value. rewrite Hna.
  set (U := rank_sum (N (data wi)) (n1 (data wi)) (mwu_table qsort (data wi) w)).
  set (mu := mu_U (data wi)). set (s := sigma_U (data wi)) in *.
  assert (Hinv : (0 < / s)%R) by (apply Rinv_0_lt_compat; exact Hsig).
  unfold Double.gtb, Double.ltb.
  destruct (Rlt_dec mu U) as [Hlt|Hge].
  - assert (Harg : ((mu - U) / s < 0)%R) by (unfold Rdiv; nra).
    pose proof (Hneg _ Harg) as He.
    split; [lra|]. split; [split; intros; lra|].
    exists ((mu - U) / s)%R. split; [lra | reflexivity].
  - destruct (Req_dec U mu) as [He|Hne].
    + rewrite He. replace ((mu - mu) / s)%R with 0%R by (unfold Rdiv; ring).
      rewrite H0. split; [lra|]. split; [split; intros; [reflexivity | lra]|].
      exists 0%R. split; [lra|]. rewrite H0. reflexivity.
    + assert (Harg : ((U - mu) / s < 0)%R) by (unfold Rdiv; nra).
      pose proof (Hneg _ Harg) as He.
      split; [lra|]. split; [split; intros; [lra | contradiction]|].
      exists ((U - mu) / s)%R. split; [lra | reflexivity].
Qed.

Lemma mwu_iterator_sigma (ws : list Window) :
  sigma_U (data (mwu_iterator 2 2 ws)) = 1%R.
Proof.
  unfold mwu_iterator, MWUReduction.
  cbn [mkMultiset count multis_count0 multis_count1 Z.eqb Pos.eqb negb orb
       newWiggleIterator data sigma_U].
  change (CInt.div (CInt.mul (CInt.mul 2 2) (CInt.add (CInt.add 2 2) 1)) 12) with 1%Z.
  apply sqrt_1.
Qed.

Lemma MWUReduction_value_nonpositive_witness :
  let wi := mwu_iterator 2 2 [ranked_window] in
  let wi' := snd (MWUReductionPop2 erf_stub qsort_keep wi) in
  (value wi' <= 0)%R /\
  (value wi' = 0%R
   <-> rank_sum (N (data wi)) (n1 (data wi)) (rankingTable (data wi'))
       = mu_U (data wi)) /\
  (exists x, (x <= 0)%R /\ value wi' = (2 * erf_stub x)%R).
Proof.
  apply (MWUReduction_value_nonpositive erf_stub qsort_keep
           (mwu_iterator 2 2 [ranked_window])
           (snd (MWUReductionPop2 erf_stub qsort_keep (mwu_iterator 2 2 [ranked_window])))).
  - intros x Hx. exact Hx.
  - reflexivity.
  - reflexivity.
  - reflexivity.
  - rewrite mwu_iterator_sigma. lra.
  - reflexivity.
  - reflexivity.
Defined.

(** ** The T-test statistic against its textbook form *)

Lemma accumulate_from fl : forall pre_f pre_v vs acc,
  length pre_f = length pre_v -> length fl = length vs ->
  fold_left (accumulate_step (pre_f ++ fl) (pre_v ++ vs))
    (seq (length pre_f) (length fl)) acc
  = (fst acc + Rsum (inplay_values fl vs),
     snd acc + Rsum (map (fun v => v * v) (inplay_values fl vs)))%R.
Proof.
  induction fl as [|b fl IH]; intros pre_f pre_v vs acc Hp Hl.
  - destruct vs; [|discriminate]. cbn. destruct acc; cbn. f_equal; ring.
  - destruct vs as [|x vs]; [discriminate|]. injection Hl as Hl.
    cbn [length seq fold_left].
    assert (Hb : nth (length pre_f) (pre_f ++ b :: fl) false = b) by apply nth_middle.
    assert (Hx : nth (length pre_f) (pre_v ++ x :: vs) 0%R = x)
      by (rewrite Hp; apply nth_middle).
    unfold accumulate_step at 2. rewrite Hb, Hx.
    specialize (IH (pre_f ++ [b]) (pre_v ++ [x]) vs).
    rewrite <- !app_assoc in IH. cbn [app] in IH.
    rewrite !length_app in IH. cbn [length] in IH.
    replace (length pre_f + 1)%nat with (S (length pre_f)) in IH by lia.
    rewrite IH by (try lia).
    unfold inplay_values. cbn [combine filter fst].
    unfold Rsum. destruct b; cbn [map snd fst fold_right]; [f_equal; ring | reflexivity].
Qed.

(** The loops add up the values in play and their squares. *)
Lemma accumulate_sums n fl vs :
  Z.of_nat (length fl) = n -> Z.of_nat (length vs) = n ->
  accumulate n fl vs
  = (Rsum (inplay_values fl vs), Rsum (map (fun v => v * v)%R (inplay_values fl vs))).
Proof.
  intros Hf Hv. unfold accumulate. subst n. rewrite Nat2Z.id.
  change (fold_left (accumulate_step ([] ++ fl) ([] ++ vs))
            (seq (length (@nil bool)) (length fl)) (0%R, 0%R)
          = (Rsum (inplay_values fl vs),
             Rsum (map (fun v => v * v)%R (inplay_values fl vs)))).
  rewrite accumulate_from by (cbn; lia).
  cbn [fst snd]. f_equal; ring.
Qed.

Lemma group_mean_welch n fl vs :
  Z.of_nat (length fl) = n -> Z.of_nat (length vs) = n ->
  group_mean n fl vs = welch_mean n fl vs.
Proof.
  intros Hf Hv. unfold group_mean, welch_mean.
  rewrite (accumulate_sums n fl vs Hf Hv). reflexivity.
Qed.

Lemma group_var_welch n fl vs :
  Z.of_nat (length fl) = n -> Z.of_nat (length vs) = n ->
  group_var n fl vs = welch_var n fl vs.
Proof.
  intros Hf Hv. unfold group_var, welch_var.
  rewrite (group_mean_welch n fl vs Hf Hv), (accumulate_sums n fl vs Hf Hv).
  cbn [snd]. ring.
Qed.

(** Lines 122 to 125 take the absolute value of the statistic. *)
Lemma t_of_welch mean1 mean2 var1 var2 count1 count2 :
  t_of mean1 mean2 var1 var2 count1 count2
  = welch_t mean1 mean2 var1 var2 count1 count2.
Proof.
  unfold t_of, welch_t.
  set (s := sqrt (var1 / IZR count1 + var2 / IZR count2)).
  assert (Hs : (0 <= s)%R) by apply sqrt_pos.
  assert (Habs : (Rabs ((mean1 - mean2) / s) = Rabs (mean1 - mean2) / s)%R).
  { unfold Rdiv. rewrite Rabs_mult, Rabs_inv, (Rabs_pos_eq s Hs). reflexivity. }
  rewrite <- Habs. unfold Double.ltb.
  destruct (Rlt_dec ((mean1 - mean2) / s) 0) as [Hlt|Hge].
  - rewrite Rabs_left by exact Hlt. reflexivity.
  - rewrite Rabs_right by lra. reflexivity.
Qed.

(** Up to 1290 replicates [count * count * (count - 1)] fits an int. *)
Lemma nu_denominator_exact count :
  (0 <= count <= 1290)%Z ->
  nu_denominator count = (count * count * (count - 1))%Z.
Proof.
  intros H. unfold nu_denominator, CInt.mul, CInt.sub.
  rewrite (wrap_in_range (count - 1))
    by (unfold CInt.in_range, CInt.INT_MIN, CInt.INT_MAX; lia).
  rewrite (wrap_in_range (count * count))
    by (unfold CInt.in_range, CInt.INT_MIN, CInt.INT_MAX; nia).
  apply wrap_in_range. unfold CInt.in_range, CInt.INT_MIN, CInt.INT_MAX.
  assert (0 <= count * count <= 1290 * 1290)%Z by nia.
  destruct (Z.eq_dec count 0) as [->|Hn]; [lia|].
  assert (0 <= count - 1 <= 1289)%Z by lia.
  nia.
Qed.

Lemma nu_of_satterthwaite var1 var2 count1 count2 :
  (0 <= count1 <= 1290)%Z -> (0 <= count2 <= 1290)%Z ->
  nu_of var1 var2 count1 count2 = satterthwaite var1 var2 count1 count2.
Proof.
  intros H1 H2. unfold nu_of, satterthwaite.
  rewrite (nu_denominator_exact count1 H1), (nu_denominator_exact count2 H2).
  rewrite !mult_IZR, !minus_IZR. cbn [pow]. rewrite !Rmult_1_r. reflexivity.
Qed.

(** The value of a published record is the two-sided Welch p-value with
    Satterthwaite's degrees of freedom, for groups of at most 1290
    replicates. *)
Lemma ttest_value_textbook Q count1 count2 w :
  wf_window count1 count2 w ->
  (0 <= count1 <= 1290)%Z -> (0 <= count2 <= 1290)%Z ->
  ttest_value Q count1 count2 w
  = (2 * Q (welch_t (welch_mean count1 (w_multis_inplay0 w) (w_values0 w))
                    (welch_mean count2 (w_multis_inplay1 w) (w_values1 w))
                    (welch_var count1 (w_multis_inplay0 w) (w_values0 w))
                    (welch_var count2 (w_multis_inplay1 w) (w_values1 w))
                    count1 count2)
           (satterthwaite (welch_var count1 (w_multis_inplay0 w) (w_values0 w))
                          (welch_var count2 (w_multis_inplay1 w) (w_values1 w))
                          count1 count2))%R.
Proof.
  intros (Hf0 & Hv0 & Hf1 & Hv1 & _) H1 H2. unfold ttest_value.
  rewrite t_of_welch, (nu_of_satterthwaite _ _ count1 count2 H1 H2).
  rewrite !group_mean_welch, !group_var_welch by assumption.
  reflexivity.
Qed.

Lemma inplay_values_all_true n : forall vs,
  length vs = n -> inplay_values (repeat true n) vs = vs.
Proof.
  induction n as [|n IH]; intros [|x vs] H; try discriminate; [reflexivity|].
  injection H as H. unfold inplay_values in *. cbn [repeat combine filter fst map snd].
  rewrite (IH vs H). reflexivity.
Qed.

Lemma Rsum_repeat_0 n : Rsum (repeat 0%R n) = 0%R.
Proof.
  induction n as [|n IH]; [reflexivity|].
  unfold Rsum in *. cbn [repeat fold_right]. rewrite IH. ring.
Qed.

Lemma Rsum_squares_repeat_0 n : Rsum (map (fun v => v * v)%R (repeat 0%R n)) = 0%R.
Proof.
  induction n as [|n IH]; [reflexivity|].
  unfold Rsum in *. cbn [repeat map fold_right]. rewrite IH. ring.
Qed.

Lemma large_window_wf : wf_window 1291 2 large_window.
Proof.
  unfold wf_window, large_window, mkWindow.
  cbn [w_multis_inplay0 w_multis_inplay1 w_values0 w_values1 w_inplay0 w_inplay1].
  cbn [length]. rewrite !repeat_length.
  repeat split; reflexivity.
Qed.

Lemma large_window_mean1 :
  welch_mean 1291 (w_multis_inplay0 large_window) (w_values0 large_window)
  = (1 / 1291)%R.
Proof.
  unfold welch_mean, large_window, mkWindow. cbn [w_multis_inplay0 w_values0].
  rewrite inplay_values_all_true by (cbn [length]; rewrite repeat_length; reflexivity).
  unfold Rsum. cbn [fold_right]. fold (Rsum (repeat 0%R 1290)).
  rewrite Rsum_repeat_0. f_equal. ring.
Qed.

Lemma large_window_var1 :
  welch_var 1291 (w_multis_inplay0 large_window) (w_values0 large_window)
  = (1 / 1291 - (1 / 1291) ^ 2)%R.
Proof.
  unfold welch_var. rewrite large_window_mean1.
  unfold large_window, mkWindow. cbn [w_multis_inplay0 w_values0].
  rewrite inplay_values_all_true by (cbn [length]; rewrite repeat_length; reflexivity).
  unfold Rsum. cbn [map fold_right].
  fold (Rsum (map (fun v => v * v)%R (repeat 0%R 1290))).
  rewrite Rsum_squares_repeat_0. f_equal. f_equal. ring.
Qed.

Lemma large_window_mean2 :
  welch_mean 2 (w_multis_inplay1 large_window) (w_values1 large_window) = 1%R.
Proof.
  unfold welch_mean, large_window, mkWindow, inplay_values, Rsum. cbn. lra.
Qed.

Lemma large_window_var2 :
  welch_var 2 (w_multis_inplay1 large_window) (w_values1 large_window) = 1%R.
Proof.
  unfold welch_var. rewrite large_window_mean2.
  unfold large_window, mkWindow, inplay_values, Rsum. cbn. lra.
Qed.

(** C1. A first group of 1291 replicates: the record is published with the
    Welch statistic, but [count1 * count1 * (count1 - 1)] has
    left the range of an int and come back negative, and the degrees of
    freedom handed to the t distribution are larger than Satterthwaite's. *)
Theorem TTestReduction_degrees_of_freedom_overflow
    (Q : R -> R -> R) (indet : WiggleIterator SetComparisonData -> bool) :
  let mean1 := welch_mean 1291 (w_multis_inplay0 large_window) (w_values0 large_window) in
  let mean2 := welch_mean 2 (w_multis_inplay1 large_window) (w_values1 large_window) in
  let var1 := welch_var 1291 (w_multis_inplay0 large_window) (w_values0 large_window) in
  let var2 := welch_var 2 (w_multis_inplay1 large_window) (w_values1 large_window) in
  wf_window 1291 2 large_window /\
  (var1 + var2 <> 0)%R /\
  (1291 * 1291 * (1291 - 1) = 2150018490)%Z /\
  nu_denominator 1291 = (-2144948806)%Z /\
  (exists wi',
     TTestReductionPop2 Q indet 1 (ttest_iterator 1291 2 [large_window])
     = Some (true, wi') /\
     done wi' = false /\
     region wi' = window_region large_window /\
     value wi' = (2 * Q (welch_t mean1 mean2 var1 var2 1291 2)
                        (nu_of var1 var2 1291 2))%R) /\
  (satterthwaite var1 var2 1291 2 < nu_of var1 var2 1291 2)%R.
Proof.
  intros mean1 mean2 var1 var2.
  pose proof large_window_wf as Hwf.
  assert (Hv1 : var1 = (1 / 1291 - (1 / 1291) ^ 2)%R) by apply large_window_var1.
  assert (Hv2 : var2 = 1%R) by apply large_window_var2.
  assert (Hpos : (0 < var1 < 1)%R) by (rewrite Hv1; lra).
  split; [exact Hwf|].
  split; [lra|].
  split; [reflexivity|].
  assert (Hden : nu_denominator 1291 = (-2144948806)%Z) by (vm_compute; reflexivity).
  split; [exact Hden|].
  split.
  - destruct Hwf as (Hf0 & Hl0 & Hf1 & Hl1 & _).
    assert (Hdeg : degenerate 1291 2 large_window = false).
    { unfold degenerate, var_sum. apply eqb_false.
      rewrite !group_var_welch by assumption. fold var1 var2. lra. }
    pose proof (TTestReductionPop2_qualifying Q indet 0
                  (ttest_iterator 1291 2 [large_window])
                  (mkMultiset 1291 2 []) large_window []
                  eq_refl eq_refl eq_refl) as Hstep.
    cbn [mkMultiset multis_count0 multis_count1] in Hstep.
    rewrite Hdeg in Hstep.
    eexists. split; [apply Hstep; discriminate|].
    split; [reflexivity|]. split; [reflexivity|].
    cbn [value set_data set_value]. unfold ttest_value.
    rewrite t_of_welch, !group_mean_welch, !group_var_welch by assumption.
    reflexivity.
  - unfold satterthwaite, nu_of. rewrite Hden.
    change (nu_denominator 2) with 4%Z.
    rewrite Hv2. 
    set (a := (var1 / 1291 + 1 / 2)%R).
    assert (Ha : (0 < a * a)%R) by (unfold a; nra).
    assert (Hsq : (0 < var1 * var1 < 1)%R) by nra.
    replace (a ^ 2)%R with (a * a)%R by ring.
    replace (var1 ^ 2)%R with (var1 * var1)%R by ring.
    set (V := (var1 * var1)%R) in *.
    assert (HD1 : (0 < V / -2144948806 + 1 * 1 / 4)%R) by lra.
    assert (HD : (V / -2144948806 + 1 * 1 / 4
                  < V / (1291 ^ 2 * (1291 - 1)) + 1 ^ 2 / (2 ^ 2 * (2 - 1)))%R).
    { assert (0 < V / (1291 ^ 2 * (1291 - 1)))%R
        by (apply Rdiv_lt_0_compat; lra).
      lra. }
    unfold Rdiv at 1 3. apply Rmult_lt_compat_l; [exact Ha|].
    apply Rinv_0_lt_contravar; assumption.
Qed.

(** ** The windows both reducers publish *)

Lemma existsb_inplay_count (flags : list bool) :
  existsb (fun b : bool => b) flags = true <-> (1 <= inplay_count flags)%nat.
Proof.
  unfold inplay_count. induction flags as [|b flags IH]; cbn [existsb filter length].
  - split; [discriminate | lia].
  - destruct b; cbn [orb length]; [split; [lia | reflexivity] | exact IH].
Qed.

Lemma qualifying_has_replicates count1 count2 w :
  wf_window count1 count2 w ->
  qualifying w = true <-> has_replicates_in_play w.
Proof.
  intros (_ & _ & _ & _ & H0 & H1). unfold qualifying, has_replicates_in_play.
  rewrite <- !existsb_inplay_count, <- H0, <- H1.
  destruct (w_inplay0 w), (w_inplay1 w); cbn; intuition congruence.
Qed.

Lemma ttest_emits_qualifying count1 count2 w :
  ttest_emits count1 count2 w = true -> qualifying w = true.
Proof.
  unfold ttest_emits. intros H.
  apply andb_prop in H as [H _]. apply andb_prop in H as [_ H]. exact H.
Qed.

(** C4. Over a synchroniser that keeps its contract, the windows either
    reducer publishes are windows of the input, picked in order by a test
    that only windows with a replicate in play in each group pass; a window
    where a group has no replicate in play fails both tests and is left
    behind. *)
Theorem emitted_windows_have_replicates_in_play
    (Q : R -> R -> R) (indet : WiggleIterator SetComparisonData -> bool)
    (erf : R -> R)
    (qsort : (ValueSetPair -> ValueSetPair -> Z) -> list ValueSetPair -> list ValueSetPair)
    (m : Multiset) (ws : list Window) (n fuel : nat)
    (ti : WiggleIterator SetComparisonData) (mi : WiggleIterator MWUData) :
  Forall (wf_window (multis_count0 m) (multis_count1 m)) ws ->
  done ti = false -> data ti = {| multi := with_windows m ws |} ->
  done mi = false -> windows (mwu_multi (data mi)) = ws ->
  (length ws < n)%nat -> (2 * length ws + 2 <= fuel)%nat ->
  map fst (pulls (TTestReductionPop Q indet fuel) n ti)
  = map window_region (filter (ttest_emits (multis_count0 m) (multis_count1 m)) ws)
  /\
  map fst (pulls (MWUReductionPop erf qsort fuel) n mi)
  = map window_region (filter qualifying ws)
  /\
  Forall has_replicates_in_play
    (filter (ttest_emits (multis_count0 m) (multis_count1 m)) ws)
  /\
  Forall has_replicates_in_play (filter qualifying ws)
  /\
  (forall w, In w ws ->
     inplay_count (w_multis_inplay0 w) = 0%nat
     \/ inplay_count (w_multis_inplay1 w) = 0%nat ->
     ttest_emits (multis_count0 m) (multis_count1 m) w = false
     /\ qualifying w = false).
Proof.
  intros Hwf Hdt Hdata Hdm Hws Hn Hf.
  rewrite Forall_forall in Hwf.
  split; [|split; [|split; [|split]]].
  - rewrite (pulls_TTestReduction Q indet n fuel ti m ws Hdt Hdata Hn Hf).
    unfold ttest_stream. rewrite map_map. reflexivity.
  - destruct fuel as [|fuel]; [lia|].
    rewrite (pulls_MWUReduction erf qsort n fuel mi Hdm) by (rewrite Hws; exact Hn).
    rewrite Hws. reflexivity.
  - apply Forall_forall. intros w Hin. apply filter_In in Hin as [Hin He].
    apply (qualifying_has_replicates _ _ w (Hwf w Hin)).
    exact (ttest_emits_qualifying _ _ w He).
  - apply Forall_forall. intros w Hin. apply filter_In in Hin as [Hin He].
    apply (qualifying_has_replicates _ _ w (Hwf w Hin)). exact He.
  - intros w Hin Hzero.
    assert (Hq : qualifying w = false).
    { destruct (qualifying w) eqn:Hq; [|reflexivity].
      apply (qualifying_has_replicates _ _ w (Hwf w Hin)) in Hq.
      destruct Hq as [H0 H1]. lia. }
    split; [|exact Hq].
    destruct (ttest_emits (multis_count0 m) (multis_count1 m) w) eqn:He; [|reflexivity].
    apply ttest_emits_qualifying in He. congruence.
Qed.

Lemma emitted_windows_have_replicates_in_play_witness :
  map fst (pulls (TTestReductionPop tail_stub reads_false 6) 3
             (ttest_iterator 3 2 [vacant_window; worked_window]))
  = map window_region (filter (ttest_emits 3 2) [vacant_window; worked_window])
  /\
  map fst (pulls (MWUReductionPop erf_stub qsort_keep 6) 3
             (mwu_iterator 3 2 [vacant_window; worked_window]))
  = map window_region (filter qualifying [vacant_window; worked_window])
  /\
  Forall has_replicates_in_play (filter (ttest_emits 3 2) [vacant_window; worked_window])
  /\
  Forall has_replicates_in_play (filter qualifying [vacant_window; worked_window])
  /\
  (forall w, In w [vacant_window; worked_window] ->
     inplay_count (w_multis_inplay0 w) = 0%nat
     \/ inplay_count (w_multis_inplay1 w) = 0%nat ->
     ttest_emits 3 2 w = false /\ qualifying w = false).
Proof.
  apply (emitted_windows_have_replicates_in_play tail_stub reads_false erf_stub qsort_keep
           (mkMultiset 3 2 []) [vacant_window; worked_window] 3 6
           (ttest_iterator 3 2 [vacant_window; worked_window])
           (mwu_iterator 3 2 [vacant_window; worked_window])).
  - repeat constructor.
  - reflexivity.
  - reflexivity.
  - reflexivity.
  - reflexivity.
  - simpl. lia.
  - simpl. lia.
Defined.

(** ** Windows without variance *)

Lemma partial_window_var_sum : var_sum 2 2 partial_window = (1 / 4)%R.
Proof.
  unfold var_sum. rewrite !group_var_welch by reflexivity.
  unfold welch_var, welch_mean, partial_window, mkWindow, inplay_values, Rsum.
  cbn. lra.
Qed.

(** On the reals: the replicates in play of both groups all hold [1], the
    second replicate of the first group is out of play, and the window is
    published. *)
Lemma constant_values_in_play_published :
  wf_window 2 2 partial_window /\
  inplay_values (w_multis_inplay0 partial_window) (w_values0 partial_window) = [1%R] /\
  inplay_values (w_multis_inplay1 partial_window) (w_values1 partial_window)
  = [1%R; 1%R] /\
  var_sum 2 2 partial_window <> 0%R /\
  pulls (TTestReductionPop tail_stub reads_false 4) 2 (ttest_iterator 2 2 [partial_window])
  = [(window_region partial_window, ttest_value tail_stub 2 2 partial_window)].
Proof.
  assert (Hv : var_sum 2 2 partial_window <> 0%R)
    by (rewrite partial_window_var_sum; lra).
  split; [repeat split|]. split; [reflexivity|]. split; [reflexivity|].
  split; [exact Hv|].
  rewrite (pulls_TTestReduction tail_stub reads_false 2 4
             (ttest_iterator 2 2 [partial_window]) (mkMultiset 2 2 [])
             [partial_window] eq_refl eq_refl) by (simpl; lia).
  unfold ttest_stream. cbn [filter mkMultiset multis_count0 multis_count1].
  assert (He : ttest_emits 2 2 partial_window = true).
  { unfold ttest_emits, degenerate. rewrite (eqb_false _ _ Hv). reflexivity. }
  rewrite He. reflexivity.
Qed.




(** ** The re-check of the replicate counts *)

Lemma inplay_count_le (flags : list bool) : (inplay_count flags <= length flags)%nat.
Proof. unfold inplay_count. apply filter_length_le. Qed.

(** Over a synchroniser that keeps its contract, a window with both group
    flags up has a replicate in play in each group, and both groups have
    replicates: the test of line 101 finds neither count at zero there. *)
Lemma qualifying_counts_positive count1 count2 w :
  wf_window count1 count2 w ->
  qualifying w = true ->
  has_replicates_in_play w /\ (1 <= count1)%Z /\ (1 <= count2)%Z.
Proof.
  intros Hwf Hq.
  pose proof (proj1 (qualifying_has_replicates count1 count2 w Hwf) Hq) as [H0 H1].
  destruct Hwf as (Hf0 & _ & Hf1 & _).
  pose proof (inplay_count_le (w_multis_inplay0 w)).
  pose proof (inplay_count_le (w_multis_inplay1 w)).
  split; [split; assumption|]. lia.
Qed.

(** * Further properties of the reducers *)

(** ** The comparison handed to [qsort] *)

Lemma compare_cases (A B : ValueSetPair) :
  ((vsp_value A < vsp_value B)%R /\ compareValueSetPairs A B = (-1)%Z) \/
  (vsp_value A = vsp_value B /\ compareValueSetPairs A B = 0%Z) \/
  ((vsp_value B < vsp_value A)%R /\ compareValueSetPairs A B = 1%Z).
Proof.
  unfold compareValueSetPairs, Double.gtb, Double.ltb.
  destruct (Rlt_dec (vsp_value A) (vsp_value B)) as [H|H]; [left; split; [exact H | reflexivity]|].
  destruct (Rlt_dec (vsp_value B) (vsp_value A)) as [H'|H'].
  - right; right. split; [exact H' | reflexivity].
  - right; left. split; [lra | reflexivity].
Qed.

(** X1. [compareValueSetPairs] orders entries by value alone: swapping the
    arguments flips the sign, the result is zero exactly for equal values
    (whatever the sets), negative exactly for a smaller first value, and
    being in order carries over from two steps to one. *)
Theorem compareValueSetPairs_total_preorder (A B C : ValueSetPair) :
  compareValueSetPairs A B = (- compareValueSetPairs B A)%Z /\
  (compareValueSetPairs A B = 0%Z <-> vsp_value A = vsp_value B) /\
  (compareValueSetPairs A B < 0 <-> (vsp_value A < vsp_value B)%R)%Z /\
  (compareValueSetPairs A B <= 0 -> compareValueSetPairs B C <= 0 ->
   compareValueSetPairs A C <= 0)%Z.
Proof.
  destruct (compare_cases A B) as [[H1 E1]|[[H1 E1]|[H1 E1]]];
  destruct (compare_cases B A) as [[H2 E2]|[[H2 E2]|[H2 E2]]];
  try lra; rewrite E1, E2.
  all: split; [reflexivity|].
  all: split; [split; intros; try lia; try lra|].
  all: split; [split; intros; try lia; try lra|].
  all: intros Hab Hbc; try lia.
  all: destruct (compare_cases B C) as [[H3 E3]|[[H3 E3]|[H3 E3]]];
       rewrite E3 in Hbc; try lia;
       destruct (compare_cases A C) as [[H4 E4]|[[H4 E4]|[H4 E4]]];
       rewrite E4; try lia; lra.
Qed.

(** ** The two-sided value of the Mann-Whitney reducer *)

(** X2. The value of lines 275 to 280 depends on the rank sum through its
    distance to [mu_U] only: it is twice the error function of minus that
    distance over [sigma_U], the same for [mu_U + x] and [mu_U - x]. *)
Theorem mwu_value_two_sided (erf : R -> R) (d : MWUData) (U old x : R) :
  normalApproximation d = true ->
  mwu_value erf d U old = (2 * erf (- Rabs (U - mu_U d) / sigma_U d))%R /\
  mwu_value erf d (mu_U d + x) old = mwu_value erf d (mu_U d - x) old.
Proof.
  intros Hna.
  assert (H : forall V, mwu_value erf d V old
                        = (2 * erf (- Rabs (V - mu_U d) / sigma_U d))%R).
  { intros V. unfold mwu_value, Double.gtb, Double.ltb. rewrite Hna.
    destruct (Rlt_dec (mu_U d) V) as [Hlt|Hge].
    - rewrite Rabs_right by lra. do 3 f_equal. lra.
    - rewrite Rabs_left1 by lra. do 3 f_equal. lra. }
  split; [apply H|].
  rewrite !H. do 4 f_equal.
  replace (mu_U d + x - mu_U d)%R with x by ring.
  replace (mu_U d - x - mu_U d)%R with (- x)%R by ring.
  symmetry. apply Rabs_Ropp.
Qed.

Lemma mwu_value_two_sided_witness :
  mwu_value erf_stub (data (mwu_iterator 2 2 [])) 3 0
  = (2 * erf_stub (- Rabs (3 - mu_U (data (mwu_iterator 2 2 [])))
                   / sigma_U (data (mwu_iterator 2 2 []))))%R /\
  mwu_value erf_stub (data (mwu_iterator 2 2 []))
    (mu_U (data (mwu_iterator 2 2 [])) + 1) 0
  = mwu_value erf_stub (data (mwu_iterator 2 2 []))
      (mu_U (data (mwu_iterator 2 2 [])) - 1) 0.
Proof.
  apply (mwu_value_two_sided erf_stub (data (mwu_iterator 2 2 [])) 3 0 1).
  reflexivity.
Defined.

(** ** Replicates out of play weigh in as zeros *)

Lemma accumulate_fold (inplay : list bool) (values : list R) (l : list nat) :
  forall acc,
  fold_left (accumulate_step inplay values) l acc
  = (fst acc + Rsum (map (fun index => if nth index inplay false
                                       then nth index values 0%R else 0%R) l),
     snd acc + Rsum (map (fun v => v * v)%R
                       (map (fun index => if nth index inplay false
                                          then nth index values 0%R else 0%R) l)))%R.
Proof.
  induction l as [|i l IH]; intros acc.
  - cbn. destruct acc; cbn. f_equal; ring.
  - cbn [fold_left map]. rewrite IH. unfold accumulate_step, Rsum. cbn [fold_right].
    destruct (nth i inplay false); cbn [fst snd]; f_equal; ring.
Qed.

Lemma substituted_map n inplay values :
  substituted n inplay values
  = map (fun index => if nth index inplay false then nth index values 0%R else 0%R)
      (seq 0 (Z.to_nat n)).
Proof. unfold substituted, populate. rewrite map_map. reflexivity. Qed.

Lemma accumulate_substituted n inplay values :
  accumulate n inplay values
  = (Rsum (substituted n inplay values),
     Rsum (map (fun v => v * v)%R (substituted n inplay values))).
Proof.
  unfold accumulate. rewrite accumulate_fold, substituted_map.
  cbn [fst snd]. f_equal; ring.
Qed.

(** X3. The mean and the variance the T-test computes for a group are the
    plain mean and variance of the [count] values the Mann-Whitney table
    holds for it: a replicate out of play weighs in as the value [0], and
    what is stored for it is never read. *)
Theorem ttest_counts_out_of_play_as_zero (n : Z) (inplay : list bool) (values : list R) :
  group_mean n inplay values = (Rsum (substituted n inplay values) / IZR n)%R /\
  group_var n inplay values
  = (Rsum (map (fun v => v * v)%R (substituted n inplay values)) / IZR n
     - (Rsum (substituted n inplay values) / IZR n) ^ 2)%R.
Proof.
  unfold group_var, group_mean. rewrite accumulate_substituted. cbn [fst snd].
  split; [reflexivity | ring].
Qed.

Lemma substituted_length n inplay values :
  length (substituted n inplay values) = Z.to_nat n.
Proof. rewrite substituted_map, length_map, length_seq. reflexivity. Qed.

(** ** A group of one replicate *)

(** X5. [TTestReduction] accepts a first group of one replicate beside a
    group of two or more.  [count1 * count1 * (count1 - 1)] is then zero, and
    a qualifying window at which the test of line 115 does not fire is
    published with degrees of freedom whose first quotient divides by the
    double of that zero: neither guard covers the division.  This holds
    whatever the arithmetic of doubles is. *)
Theorem TTestReduction_single_replicate_group
    (A : Floating.Arithmetic)
    (Q : Floating.double A -> Floating.double A -> Floating.double A)
    (indet : Floating.WiggleIterator A (Floating.SetComparisonData A) -> bool)
    (m : Floating.Multiset A) (w : Floating.Window A) (ws : list (Floating.Window A))
    (fuel : nat) (wi : Floating.WiggleIterator A (Floating.SetComparisonData A)) :
  Floating.count m = 2%Z ->
  Floating.multis_count0 m = 1%Z ->
  (2 <= Floating.multis_count1 m < CInt.INT_MAX)%Z ->
  Floating.done wi = false ->
  Floating.data wi = Floating.Build_SetComparisonData A (Floating.with_windows m (w :: ws)) ->
  Floating.qualifying w = true ->
  Floating.eqb A (Floating.var_sum A 1 (Floating.multis_count1 m) w) (Floating.of_int A 0)
  = false ->
  let var1 := Floating.group_var A 1 (Floating.w_multis_inplay0 w) (Floating.w_values0 w) in
  let var2 :=
    Floating.group_var A (Floating.multis_count1 m)
      (Floating.w_multis_inplay1 w) (Floating.w_values1 w) in
  let mean1 := Floating.group_mean A 1 (Floating.w_multis_inplay0 w) (Floating.w_values0 w) in
  let mean2 :=
    Floating.group_mean A (Floating.multis_count1 m)
      (Floating.w_multis_inplay1 w) (Floating.w_values1 w) in
  let s :=
    Floating.add A (Floating.div A var1 (Floating.of_int A 1))
      (Floating.div A var2 (Floating.of_int A (Floating.multis_count1 m))) in
  Floating.TTestReduction m
  = Floating.Ready (Floating.newWiggleIterator (Floating.Build_SetComparisonData A m))
  /\
  nu_denominator (Floating.multis_count0 m) = 0%Z
  /\
  Floating.TTestReductionPop2 A Q indet (S fuel) wi
  = Some (true,
          Floating.set_data
            (Floating.set_value (Floating.set_region wi w)
               (Floating.mul A (Floating.of_int A 2)
                  (Q (Floating.t_of A mean1 mean2 var1 var2 1 (Floating.multis_count1 m))
                     (Floating.div A (Floating.mul A s s)
                        (Floating.add A
                           (Floating.div A (Floating.mul A var1 var1) (Floating.of_int A 0))
                           (Floating.div A (Floating.mul A var2 var2)
                              (Floating.of_int A
                                 (nu_denominator (Floating.multis_count1 m)))))))))
            (Floating.Build_SetComparisonData A (Floating.with_windows m ws))).
Proof.
  intros Hc H1 H2 Hd Hdata Hq Hb var1 var2 mean1 mean2 s.
  split; [|split; [rewrite H1; reflexivity|]].
  - unfold Floating.TTestReduction, CInt.add. rewrite Hc, H1.
    rewrite wrap_in_range
      by (unfold CInt.in_range, CInt.INT_MIN, CInt.INT_MAX in *; lia).
    destruct (Z.ltb_spec (1 + Floating.multis_count1 m) 3); [lia | reflexivity].
  - rewrite (floating_TTestReductionPop2_qualifying A Q indet fuel wi m w ws Hd Hdata Hq)
      by lia.
    unfold Floating.degenerate. rewrite H1, Hb. reflexivity.
Qed.

Lemma TTestReduction_single_replicate_group_witness :
  let w := binary64_single in
  let var1 :=
    Floating.group_var binary64 1 (Floating.w_multis_inplay0 w) (Floating.w_values0 w) in
  let var2 :=
    Floating.group_var binary64 2 (Floating.w_multis_inplay1 w) (Floating.w_values1 w) in
  let mean1 :=
    Floating.group_mean binary64 1 (Floating.w_multis_inplay0 w) (Floating.w_values0 w) in
  let mean2 :=
    Floating.group_mean binary64 2 (Floating.w_multis_inplay1 w) (Floating.w_values1 w) in
  let s :=
    PrimFloat.add (PrimFloat.div var1 (binary64_of_int 1))
      (PrimFloat.div var2 (binary64_of_int 2)) in
  Floating.TTestReduction (binary64_multiset 1 2 [binary64_single])
  = Floating.Ready (binary64_iterator 1 2 [binary64_single])
  /\
  nu_denominator (Floating.multis_count0 (binary64_multiset 1 2 [binary64_single])) = 0%Z
  /\
  Floating.TTestReductionPop2 binary64 binary64_tail_stub binary64_reads_false 1
    (binary64_iterator 1 2 [binary64_single])
  = Some (true,
          Floating.set_data
            (Floating.set_value
               (Floating.set_region (binary64_iterator 1 2 [binary64_single]) w)
               (PrimFloat.mul (binary64_of_int 2)
                  (binary64_tail_stub
                     (Floating.t_of binary64 mean1 mean2 var1 var2 1 2)
                     (PrimFloat.div (PrimFloat.mul s s)
                        (PrimFloat.add
                           (PrimFloat.div (PrimFloat.mul var1 var1) (binary64_of_int 0))
                           (PrimFloat.div (PrimFloat.mul var2 var2)
                              (binary64_of_int (nu_denominator 2))))))))
            (Floating.Build_SetComparisonData binary64
               (Floating.with_windows (binary64_multiset 1 2 [binary64_single]) []))).
Proof.
  apply (TTestReduction_single_replicate_group binary64 binary64_tail_stub
           binary64_reads_false (binary64_multiset 1 2 [binary64_single])
           binary64_single [] 0 (binary64_iterator 1 2 [binary64_single])).
  - reflexivity.
  - reflexivity.
  - unfold CInt.INT_MAX. simpl. lia.
  - reflexivity.
  - reflexivity.
  - reflexivity.
  - vm_compute. reflexivity.
Defined.

(** On binary64 the first quotient is [0 / 0]: the degrees of freedom are
    not a number. *)
Lemma binary64_single_replicate_nan :
  PrimFloat.eqb
    (Floating.group_var binary64 1 (Floating.w_multis_inplay0 binary64_single)
       (Floating.w_values0 binary64_single))
    (binary64_of_int 0) = true /\
  PrimFloat.is_nan (Floating.ttest_nu binary64 1 2 binary64_single) = true /\
  map (fun r => PrimFloat.is_nan (snd r))
    (Floating.pulls
       (Floating.TTestReductionPop binary64 binary64_tail_stub binary64_reads_false 3) 2
       (binary64_iterator 1 2 [binary64_single]))
  = [true].
Proof.
  split; [vm_compute; reflexivity|]. split; vm_compute; reflexivity.
Qed.

(** ** The constants of the normal approximation *)

(** X6. For two non-empty groups whose product [n1 n2 (n1 + n2 + 1)] fits
    an int, [MWUReduction] stores the integer quotients: [mu_U] is
    [n1 n2 / 2] rounded down, short of it by one half exactly when [n1 n2]
    is odd, and [sigma_U] squared is [n1 n2 (n1 + n2 + 1) / 12] rounded
    down. *)
Theorem MWUReduction_constants (multi : Multiset) :
  count multi = 2%Z ->
  (0 < multis_count0 multi)%Z -> (0 < multis_count1 multi)%Z ->
  (multis_count0 multi * multis_count1 multi
   * (multis_count0 multi + multis_count1 multi + 1) <= CInt.INT_MAX)%Z ->
  exists d,
    MWUReduction multi = Ready (newWiggleIterator d) /\
    (2 * mu_U d
     = IZR (multis_count0 multi * multis_count1 multi)
       - IZR ((multis_count0 multi * multis_count1 multi) mod 2))%R /\
    (sigma_U d * sigma_U d
     = IZR ((multis_count0 multi * multis_count1 multi
             * (multis_count0 multi + multis_count1 multi + 1)) / 12))%R /\
    (0 <= sigma_U d)%R.
Proof.
  intros Hc H0 H1 Hmax. unfold MWUReduction. rewrite Hc.
  destruct (Z.eqb_spec (multis_count0 multi) 0) as [E|_]; [lia|].
  destruct (Z.eqb_spec (multis_count1 multi) 0) as [E|_]; [lia|].
  cbn [Z.eqb Pos.eqb negb orb]. eexists. split; [reflexivity|].
  cbn [mu_U sigma_U].
  set (a := multis_count0 multi) in *. set (b := multis_count1 multi) in *.
  unfold CInt.INT_MAX in Hmax.
  assert (Hab : (0 < a * b)%Z) by nia.
  assert (Hs : (0 < a + b + 1)%Z) by lia.
  assert (Hle : (a * b <= a * b * (a + b + 1))%Z) by nia.
  assert (Hsum : (a + b + 1 <= a * b * (a + b + 1))%Z) by nia.
  assert (Hwrap : forall z, (0 <= z <= 2147483647)%Z -> CInt.wrap z = z).
  { intros z Hz. apply wrap_in_range.
    unfold CInt.in_range, CInt.INT_MIN, CInt.INT_MAX. lia. }
  unfold CInt.div, CInt.mul, CInt.add.
  rewrite (Hwrap (a * b)%Z) by lia.
  rewrite (Hwrap (a + b)%Z) by lia.
  rewrite (Hwrap (a + b + 1)%Z) by lia.
  rewrite (Hwrap (a * b * (a + b + 1))%Z) by lia.
  rewrite !Z.quot_div_nonneg by lia.
  assert (Hq2 : (0 <= a * b / 2 <= a * b)%Z).
  { split; [apply Z.div_pos; lia | apply Z.div_le_upper_bound; lia]. }
  assert (Hq12 : (0 <= a * b * (a + b + 1) / 12 <= a * b * (a + b + 1))%Z).
  { split; [apply Z.div_pos; lia | apply Z.div_le_upper_bound; lia]. }
  rewrite (Hwrap (a * b / 2)%Z) by lia.
  rewrite (Hwrap (a * b * (a + b + 1) / 12)%Z) by lia.
  split; [|split].
  - rewrite <- minus_IZR, <- mult_IZR. f_equal.
    pose proof (Z.div_mod (a * b) 2). lia.
  - apply sqrt_sqrt. apply IZR_le. lia.
  - apply sqrt_pos.
Qed.

Lemma MWUReduction_constants_witness :
  exists d,
    MWUReduction (mkMultiset 3 3 []) = Ready (newWiggleIterator d) /\
    (2 * mu_U d = IZR (3 * 3) - IZR ((3 * 3) mod 2))%R /\
    (sigma_U d * sigma_U d = IZR ((3 * 3 * (3 + 3 + 1)) / 12))%R /\
    (0 <= sigma_U d)%R.
Proof.
  apply (MWUReduction_constants (mkMultiset 3 3 [])).
  - reflexivity.
  - reflexivity.
  - reflexivity.
  - unfold CInt.INT_MAX. simpl. lia.
Defined.

(** ** The two groups in the other order *)

Lemma t_of_swap mean1 mean2 var1 var2 count1 count2 :
  t_of mean2 mean1 var2 var1 count2 count1 = t_of mean1 mean2 var1 var2 count1 count2.
Proof.
  rewrite !t_of_welch. unfold welch_t.
  rewrite (Rabs_minus_sym mean2 mean1), (Rplus_comm (var2 / IZR count2)). reflexivity.
Qed.

Lemma nu_of_swap var1 var2 count1 count2 :
  nu_of var2 var1 count2 count1 = nu_of var1 var2 count1 count2.
Proof.
  unfold nu_of.
  rewrite (Rplus_comm (var2 / IZR count2)).
  rewrite (Rplus_comm (var2 * var2 / IZR (nu_denominator count2))). reflexivity.
Qed.

Lemma ttest_value_swap Q count1 count2 w :
  ttest_value Q count2 count1 (swap_window w) = ttest_value Q count1 count2 w.
Proof.
  unfold ttest_value. cbn [swap_window w_multis_inplay0 w_multis_inplay1 w_values0 w_values1].
  rewrite t_of_swap, nu_of_swap. reflexivity.
Qed.

Lemma ttest_emits_swap count1 count2 w :
  ttest_emits count2 count1 (swap_window w) = ttest_emits count1 count2 w.
Proof.
  unfold ttest_emits, degenerate, var_sum, qualifying.
  cbn [swap_window w_multis_inplay0 w_multis_inplay1 w_values0 w_values1
       w_inplay0 w_inplay1].
  rewrite (orb_comm (count2 =? 0)%Z), (andb_comm (w_inplay1 w)).
  rewrite (Rplus_comm (group_var count2 _ _)). reflexivity.
Qed.

Lemma ttest_stream_swap Q count1 count2 ws :
  ttest_stream Q count2 count1 (map swap_window ws) = ttest_stream Q count1 count2 ws.
Proof.
  unfold ttest_stream. induction ws as [|w ws IH]; [reflexivity|].
  cbn [map filter]. rewrite ttest_emits_swap.
  destruct (ttest_emits count1 count2 w); [|exact IH].
  cbn [map]. rewrite IH, ttest_value_swap. reflexivity.
Qed.

(** X7. The T-test does not tell its two groups apart: over the same
    windows with the groups in the other order a consumer reads the same
    records, regions and values.  The statistic is an absolute value and the
    degrees of freedom add the two groups up. *)
Theorem TTestReduction_symmetric
    (Q : R -> R -> R) (indet indet' : WiggleIterator SetComparisonData -> bool)
    (m : Multiset) (n fuel : nat)
    (wi wi' : WiggleIterator SetComparisonData) :
  done wi = false -> data wi = {| multi := m |} ->
  done wi' = false -> data wi' = {| multi := swap_multiset m |} ->
  (length (windows m) < n)%nat -> (2 * length (windows m) + 2 <= fuel)%nat ->
  pulls (TTestReductionPop Q indet' fuel) n wi'
  = pulls (TTestReductionPop Q indet fuel) n wi.
Proof.
  intros Hd Hdata Hd' Hdata' Hn Hf.
  assert (Hm : m = with_windows m (windows m)) by (destruct m; reflexivity).
  rewrite (pulls_TTestReduction Q indet n fuel wi m (windows m) Hd) by (congruence || lia).
  rewrite (pulls_TTestReduction Q indet' n fuel wi' (swap_multiset m)
             (map swap_window (windows m)) Hd' Hdata')
    by (rewrite length_map; assumption).
  apply ttest_stream_swap.
Qed.

Lemma TTestReduction_symmetric_witness :
  pulls (TTestReductionPop tail_stub reads_true 6) 3
    (newWiggleIterator
       {| multi := swap_multiset (mkMultiset 3 2 [vacant_window; worked_window]) |})
  = pulls (TTestReductionPop tail_stub reads_false 6) 3
      (ttest_iterator 3 2 [vacant_window; worked_window]).
Proof.
  apply (TTestReduction_symmetric tail_stub reads_false reads_true
           (mkMultiset 3 2 [vacant_window; worked_window]) 3 6).
  - reflexivity.
  - reflexivity.
  - reflexivity.
  - reflexivity.
  - simpl. lia.
  - simpl. lia.
Defined.

(** ** The records of the T-test *)

(** X8. With groups that have replicates, over a synchroniser that keeps
    its contract, the records a consumer reads off the T-test are, in the
    order of the input, those of the windows with both group flags up at
    which the test of line 115 does not find the computed variances adding
    up to zero, each with the value lines 107 to 133 compute from that window
    alone: sums of the values in play and of their squares taken from the
    left, means and variances over the replicate counts, the statistic made
    positive, and the degrees of freedom of line 129.  This holds whatever
    the arithmetic of doubles is. *)
Theorem TTestReduction_stream_computed
    (A : Floating.Arithmetic)
    (Q : Floating.double A -> Floating.double A -> Floating.double A)
    (indet : Floating.WiggleIterator A (Floating.SetComparisonData A) -> bool)
    (m : Floating.Multiset A) (ws : list (Floating.Window A))
    (n fuel : nat) (wi : Floating.WiggleIterator A (Floating.SetComparisonData A)) :
  Floating.done wi = false ->
  Floating.data wi = Floating.Build_SetComparisonData A (Floating.with_windows m ws) ->
  Floating.multis_count0 m <> 0%Z -> Floating.multis_count1 m <> 0%Z ->
  Forall (Floating.wf_window (Floating.multis_count0 m) (Floating.multis_count1 m)) ws ->
  (length ws < n)%nat -> (length ws + 2 <= fuel)%nat ->
  Floating.pulls (Floating.TTestReductionPop A Q indet fuel) n wi
  = map (fun w =>
           (Floating.window_region w,
            Floating.ttest_value A Q (Floating.multis_count0 m) (Floating.multis_count1 m) w))
      (filter (fun w =>
                 Floating.qualifying w
                 && negb (Floating.eqb A
                            (Floating.var_sum A (Floating.multis_count0 m)
                               (Floating.multis_count1 m) w)
                            (Floating.of_int A 0)))
         ws)
  /\
  (forall w, In w ws ->
     let count1 := Floating.of_int A (Floating.multis_count0 m) in
     let count2 := Floating.of_int A (Floating.multis_count1 m) in
     let values1 :=
       Floating.inplay_values A (Floating.w_multis_inplay0 w) (Floating.w_values0 w) in
     let values2 :=
       Floating.inplay_values A (Floating.w_multis_inplay1 w) (Floating.w_values1 w) in
     let sum := fun values => fold_left (Floating.add A) values (Floating.of_int A 0) in
     let sumSq :=
       fun values =>
         fold_left (fun q v => Floating.add A q (Floating.mul A v v)) values
           (Floating.of_int A 0) in
     let mean1 := Floating.div A (sum values1) count1 in
     let mean2 := Floating.div A (sum values2) count2 in
     let var1 := Floating.sub A (Floating.div A (sumSq values1) count1)
                   (Floating.mul A mean1 mean1) in
     let var2 := Floating.sub A (Floating.div A (sumSq values2) count2)
                   (Floating.mul A mean2 mean2) in
     let s := Floating.add A (Floating.div A var1 count1) (Floating.div A var2 count2) in
     let t := Floating.div A (Floating.sub A mean1 mean2) (Floating.sqrt A s) in
     let nu :=
       Floating.div A (Floating.mul A s s)
         (Floating.add A
            (Floating.div A (Floating.mul A var1 var1)
               (Floating.of_int A (nu_denominator (Floating.multis_count0 m))))
            (Floating.div A (Floating.mul A var2 var2)
               (Floating.of_int A (nu_denominator (Floating.multis_count1 m))))) in
     Floating.var_sum A (Floating.multis_count0 m) (Floating.multis_count1 m) w
     = Floating.add A var1 var2
     /\
     Floating.ttest_value A Q (Floating.multis_count0 m) (Floating.multis_count1 m) w
     = Floating.mul A (Floating.of_int A 2)
         (Q (if Floating.ltb A t (Floating.of_int A 0) then Floating.neg A t else t) nu)).
Proof.
  intros Hd Hdata H1 H2 Hwf Hn Hf. split.
  - exact (floating_pulls_TTestReduction A Q indet n fuel wi m ws Hd Hdata H1 H2 Hn Hf).
  - intros w Hin. rewrite Forall_forall in Hwf.
    destruct (Hwf w Hin) as (Hf0 & Hv0 & Hf1 & Hv1 & _).
    cbv zeta.
    unfold Floating.var_sum, Floating.ttest_value, Floating.ttest_nu, Floating.group_var,
      Floating.group_mean, Floating.t_of, Floating.nu_of.
    rewrite (floating_accumulate_sums A _ _ _ Hf0 Hv0).
    rewrite (floating_accumulate_sums A _ _ _ Hf1 Hv1).
    cbn [fst snd]. split; reflexivity.
Qed.

Lemma TTestReduction_stream_computed_witness :
  Floating.pulls
    (Floating.TTestReductionPop binary64 binary64_tail_stub binary64_reads_false 5) 4
    (binary64_iterator 3 2 [binary64_worked; binary64_ones; binary64_worked])
  = map (fun w => (Floating.window_region w,
                   Floating.ttest_value binary64 binary64_tail_stub 3 2 w))
      (filter (fun w =>
                 Floating.qualifying w
                 && negb (Floating.eqb binary64 (Floating.var_sum binary64 3 2 w)
                            (Floating.of_int binary64 0)))
         [binary64_worked; binary64_ones; binary64_worked])
  /\
  (forall w, In w [binary64_worked; binary64_ones; binary64_worked] ->
     let count1 := binary64_of_int 3 in
     let count2 := binary64_of_int 2 in
     let values1 :=
       Floating.inplay_values binary64 (Floating.w_multis_inplay0 w) (Floating.w_values0 w) in
     let values2 :=
       Floating.inplay_values binary64 (Floating.w_multis_inplay1 w) (Floating.w_values1 w) in
     let sum := fun values => fold_left PrimFloat.add values (binary64_of_int 0) in
     let sumSq :=
       fun values =>
         fold_left (fun q v => PrimFloat.add q (PrimFloat.mul v v)) values
           (binary64_of_int 0) in
     let mean1 := PrimFloat.div (sum values1) count1 in
     let mean2 := PrimFloat.div (sum values2) count2 in
     let var1 := PrimFloat.sub (PrimFloat.div (sumSq values1) count1)
                   (PrimFloat.mul mean1 mean1) in
     let var2 := PrimFloat.sub (PrimFloat.div (sumSq values2) count2)
                   (PrimFloat.mul mean2 mean2) in
     let s := PrimFloat.add (PrimFloat.div var1 count1) (PrimFloat.div var2 count2) in
     let t := PrimFloat.div (PrimFloat.sub mean1 mean2) (PrimFloat.sqrt s) in
     let nu :=
       PrimFloat.div (PrimFloat.mul s s)
         (PrimFloat.add
            (PrimFloat.div (PrimFloat.mul var1 var1) (binary64_of_int (nu_denominator 3)))
            (PrimFloat.div (PrimFloat.mul var2 var2) (binary64_of_int (nu_denominator 2)))) in
     Floating.var_sum binary64 3 2 w = PrimFloat.add var1 var2
     /\
     Floating.ttest_value binary64 binary64_tail_stub 3 2 w
     = PrimFloat.mul (binary64_of_int 2)
         (binary64_tail_stub
            (if PrimFloat.ltb t (binary64_of_int 0) then PrimFloat.opp t else t) nu)).
Proof.
  apply (TTestReduction_stream_computed binary64 binary64_tail_stub binary64_reads_false
           (binary64_multiset 3 2 []) [binary64_worked; binary64_ones; binary64_worked] 4 5
           (binary64_iterator 3 2 [binary64_worked; binary64_ones; binary64_worked])).
  - reflexivity.
  - reflexivity.
  - discriminate.
  - discriminate.
  - repeat constructor.
  - simpl. lia.
  - simpl. lia.
Defined.

(** ** Progress *)

(** X9. A pull of the T-test comes back, whatever the bare [return;] hands
    to the loop of [TTestReductionPop]: with fuel for two calls a window and
    two more it yields an iterator that is done or has left at least one
    window of the synchroniser behind. *)
Theorem TTestReductionPop_progress
    (Q : R -> R -> R) (indet : WiggleIterator SetComparisonData -> bool)
    (fuel : nat) (wi : WiggleIterator SetComparisonData) :
  done wi = false ->
  (2 * length (windows (multi (data wi))) + 2 <= fuel)%nat ->
  exists wi',
    TTestReductionPop Q indet fuel wi = Some wi' /\
    (done wi' = true
     \/ (length (windows (multi (data wi'))) < length (windows (multi (data wi))))%nat).
Proof.
  intros Hd Hf.
  destruct (Z.eq_dec (multis_count0 (multi (data wi))) 0) as [Hz1|H1];
    [|destruct (Z.eq_dec (multis_count1 (multi (data wi))) 0) as [Hz2|H2]].
  1,2: destruct (proj2 (TTestReduction_zero_count Q indet fuel) wi Hd) as (wi' & Hp & Hd');
       [tauto | exact Hf | exists wi'; split; [exact Hp | left; exact Hd']].
  set (m := multi (data wi)) in *. set (ws := windows m) in *.
  assert (Hdata : data wi = {| multi := with_windows m ws |}).
  { unfold ws, m. destruct (data wi) as [[c c0 c1 l]]. reflexivity. }
  exists (ttest_advance Q m ws wi). split.
  - apply TTestReductionPop_advance; try assumption. lia.
  - pose proof (ttest_advance_filter Q m ws wi H1 H2) as Hadv.
    destruct (filter _ ws) as [|w rest]; [left; exact Hadv|].
    destruct Hadv as (_ & _ & ws2 & Hdata2 & _ & Hl).
    right. rewrite Hdata2. exact Hl.
Qed.

Lemma TTestReductionPop_progress_witness :
  exists wi',
    TTestReductionPop tail_stub reads_false 6
      (ttest_iterator 3 2 [vacant_window; worked_window]) = Some wi' /\
    (done wi' = true
     \/ (length (windows (multi (data wi')))
         < length (windows (multi (data (ttest_iterator 3 2 [vacant_window; worked_window])))))%nat).
Proof.
  apply (TTestReductionPop_progress tail_stub reads_false 6
           (ttest_iterator 3 2 [vacant_window; worked_window])).
  - reflexivity.
  - simpl. lia.
Defined.

(** ** The records of the Mann-Whitney reducer *)

Section MWUStream.

Variable erf : R -> R.
Variable qsort :
  (ValueSetPair -> ValueSetPair -> Z) -> list ValueSetPair -> list ValueSetPair.

Lemma MWUReductionPop2_step wi :
  done wi = false ->
  normalApproximation (data wi) = true ->
  match skip_windows (windows (mwu_multi (data wi))) with
  | [] => done (snd (MWUReductionPop2 erf qsort wi)) = true
  | w :: ws' =>
      done (snd (MWUReductionPop2 erf qsort wi)) = false /\
      current (snd (MWUReductionPop2 erf qsort wi)) = mwu_record erf qsort (data wi) w /\
      data (snd (MWUReductionPop2 erf qsort wi))
      = mwu_update (data wi) (with_windows (mwu_multi (data wi)) ws')
          (mwu_table qsort (data wi) w)
  end.
Proof.
  intros Hd Hna. unfold MWUReductionPop2. rewrite Hd. unfold multiset_done.
  destruct (windows (mwu_multi (data wi))) as [|w0 ws0] eqn:Hw; [reflexivity|].
  destruct (skip_windows (w0 :: ws0)) as [|w ws']; [reflexivity|].
  cbn. rewrite Hd. split; [reflexivity|]. split; [|reflexivity].
  unfold current, mwu_record, region, mwu_value. cbn. rewrite Hna. reflexivity.
Qed.

Lemma mwu_record_update d m table w :
  mwu_record erf qsort (mwu_update d m table) w = mwu_record erf qsort d w.
Proof. reflexivity. Qed.

Lemma pulls_MWUReduction_records n : forall fuel wi,
  done wi = false ->
  normalApproximation (data wi) = true ->
  (length (windows (mwu_multi (data wi))) < n)%nat ->
  pulls (MWUReductionPop erf qsort (S fuel)) n wi
  = map (mwu_record erf qsort (data wi))
      (filter qualifying (windows (mwu_multi (data wi)))).
Proof.
  induction n as [|n IH]; intros fuel wi Hd Hna Hn; [lia|].
  cbn [pulls]. unfold pop. rewrite Hd, (MWUReductionPop_once erf qsort fuel wi Hd).
  pose proof (MWUReductionPop2_step wi Hd Hna) as Hs.
  rewrite filter_qualifying_skip.
  pose proof (skip_windows_shorter (windows (mwu_multi (data wi)))) as Hl.
  destruct (skip_windows (windows (mwu_multi (data wi)))) as [|w ws'].
  - rewrite Hs. reflexivity.
  - destruct Hs as (Hd' & Hc & Hdata).
    destruct (Hl w ws' eq_refl) as [_ Hlen].
    rewrite Hd', Hc. cbn [map]. f_equal.
    rewrite (IH fuel _ Hd'); rewrite Hdata; cbn [mwu_update mwu_multi with_windows windows
                                                 normalApproximation]; try assumption; try lia.
    apply map_ext. intros w'. apply mwu_record_update.
Qed.

End MWUStream.

(** ** The rank scan on a table without ties *)

Lemma count_set1_app t1 t2 : count_set1 (t1 ++ t2) = (count_set1 t1 + count_set1 t2)%nat.
Proof. unfold count_set1. rewrite filter_app, length_app. reflexivity. Qed.

Lemma count_set1_le t : (count_set1 t <= length t)%nat.
Proof. unfold count_set1. apply filter_length_le. Qed.

Lemma set2_before_no_set1 t : forall seen,
  count_set1 t = 0%nat -> set2_before seen t = 0%Z.
Proof.
  induction t as [|e t IH]; intros seen H; [reflexivity|].
  unfold count_set1 in *. cbn [filter set2_before] in *.
  destruct (vsp_set e); cbn [negb length] in *; [apply IH; exact H | discriminate].
Qed.

Lemma entry_middle table pre e suf :
  table = pre ++ e :: suf ->
  entry table (Z.of_nat (length pre)) = e.
Proof. intros ->. unfold entry. rewrite Nat2Z.id. apply nth_middle. Qed.

Lemma entry_next table pre e e' suf :
  table = pre ++ e :: e' :: suf ->
  entry table (Z.of_nat (length pre) + 1) = e'.
Proof.
  intros ->. unfold entry.
  replace (Z.to_nat (Z.of_nat (length pre) + 1)) with (length (pre ++ [e]))
    by (rewrite length_app; cbn [length]; lia).
  replace (pre ++ e :: e' :: suf) with ((pre ++ [e]) ++ e' :: suf)
    by (rewrite <- app_assoc; reflexivity).
  apply nth_middle.
Qed.

Lemma int_small (z : Z) : (0 <= z <= CInt.INT_MAX)%Z -> CInt.wrap z = z.
Proof.
  intros H. apply wrap_in_range.
  unfold CInt.in_range, CInt.INT_MIN, CInt.INT_MAX in *. lia.
Qed.

(** Past an entry whose successor has another value, the look-ahead of line
    264 finds no tie. *)
Lemma look_next_no_tie table total pre e suf steps :
  table = pre ++ e :: suf ->
  total = Z.of_nat (length table) ->
  (total <= CInt.INT_MAX)%Z ->
  no_adjacent_ties (e :: suf) ->
  look_next total table steps (CInt.add (Z.of_nat (length pre)) 1) (vsp_value e) 0
  = 0%Z.
Proof.
  intros Htable Htotal Hmax Hties. destruct steps as [|steps]; [reflexivity|].
  cbn [look_next]. unfold CInt.add.
  assert (Hlen : length table = S (length pre + length suf))
    by (rewrite Htable, length_app; cbn [length]; lia).
  rewrite int_small by lia.
  destruct suf as [|e' suf].
  - destruct (Z.ltb_spec (Z.of_nat (length pre) + 1) total);
      [cbn [length] in Hlen; lia | reflexivity].
  - rewrite (entry_next table pre e e' suf Htable). destruct Hties as [Hne _].
    rewrite (eqb_false (vsp_value e') (vsp_value e)) by congruence.
    rewrite andb_false_r. reflexivity.
Qed.

Lemma no_adjacent_ties_tail e t : no_adjacent_ties (e :: t) -> no_adjacent_ties t.
Proof. destruct t as [|e' t]; [intros; exact I | intros [_ H]; exact H]. Qed.

Lemma count_set1_snoc pre e :
  count_set1 (pre ++ [e])
  = (count_set1 pre + (if vsp_set e then 0 else 1))%nat.
Proof.
  rewrite count_set1_app. unfold count_set1 at 2. cbn [filter].
  destruct (vsp_set e); reflexivity.
Qed.

Lemma scan_without_ties table total group1 suf : forall pre steps u pt,
  table = pre ++ suf ->
  total = Z.of_nat (length table) ->
  group1 = Z.of_nat (count_set1 table) ->
  (total <= CInt.INT_MAX)%Z ->
  no_adjacent_ties suf ->
  (length suf <= steps)%nat ->
  U1 (scan total group1 table steps (Z.of_nat (length pre))
        {| U1 := u; prev := Z.of_nat (count_set1 pre); ties := 0; previousTies := pt |})
  = (u + IZR (set2_before (Z.of_nat (length pre) - Z.of_nat (count_set1 pre)) suf))%R.
Proof.
  induction suf as [|e suf IH]; intros pre steps u pt Htable Htotal Hgroup Hmax Hties Hsteps.
  - cbn [set2_before]. rewrite Rplus_0_r. destruct steps as [|steps]; [reflexivity|].
    cbn [scan]. rewrite app_nil_r in Htable. subst table total.
    rewrite Z.ltb_irrefl. reflexivity.
  - destruct steps as [|steps]; [cbn [length] in Hsteps; lia|].
    cbn [scan prev].
    pose proof (count_set1_le pre) as Hple.
    assert (Hlen : length table = S (length pre + length suf))
      by (rewrite Htable, length_app; cbn [length]; lia).
    assert (Hcnt : count_set1 table = (count_set1 pre + count_set1 (e :: suf))%nat)
      by (rewrite Htable; apply count_set1_app).
    destruct (Z.ltb_spec (Z.of_nat (length pre)) total) as [_|Hge]; [|lia].
    cbn [andb].
    assert (Happ : table = (pre ++ [e]) ++ suf)
      by (rewrite <- app_assoc; exact Htable).
    assert (Hadd : CInt.add (Z.of_nat (length pre)) 1 = Z.of_nat (length (pre ++ [e]))).
    { unfold CInt.add. rewrite int_small by lia.
      rewrite length_app. cbn [length]. lia. }
    pose proof (no_adjacent_ties_tail e suf Hties) as Htail.
    assert (Hsteps' : (length suf <= steps)%nat) by (cbn [length] in Hsteps; lia).
    destruct (Z.ltb_spec (Z.of_nat (count_set1 pre)) group1) as [Hlt|Hge].
    + rewrite (entry_middle table pre e suf Htable).
      cbn [set2_before].
      destruct (vsp_set e) eqn:Hset; cbn [negb].
      * rewrite Hadd.
        assert (Hp : count_set1 pre = count_set1 (pre ++ [e]))
          by (rewrite count_set1_snoc, Hset; lia).
        rewrite Hp.
        rewrite (IH (pre ++ [e]) steps u pt Happ Htotal Hgroup Hmax Htail Hsteps').
        rewrite length_app. cbn [length].
        do 3 f_equal. lia.
      * unfold scan_set1. cbn [ties U1 prev previousTies Z.eqb negb].
        rewrite (entry_middle table pre e suf Htable).
        rewrite (look_next_no_tie table total pre e suf _ Htable Htotal Hmax Hties).
        cbn [Z.eqb negb].
        assert (Hp : CInt.add (Z.of_nat (count_set1 pre)) 1
                     = Z.of_nat (count_set1 (pre ++ [e]))).
        { unfold CInt.add. rewrite int_small by lia.
          rewrite count_set1_snoc, Hset. lia. }
        rewrite Hp, Hadd.
        assert (Hsub : CInt.sub (Z.of_nat (length pre)) (Z.of_nat (count_set1 pre))
                       = (Z.of_nat (length pre) - Z.of_nat (count_set1 pre))%Z).
        { unfold CInt.sub. apply int_small. lia. }
        rewrite Hsub.
        rewrite (IH (pre ++ [e]) steps _ pt Happ Htotal Hgroup Hmax Htail Hsteps').
        rewrite plus_IZR.
        replace (Z.of_nat (length (pre ++ [e])) - Z.of_nat (count_set1 (pre ++ [e])))%Z
          with (Z.of_nat (length pre) - Z.of_nat (count_set1 pre))%Z.
        { ring. }
        rewrite length_app, count_set1_snoc, Hset. cbn [length]. lia.
    + cbn [U1].
      rewrite set2_before_no_set1 by lia. lra.
Qed.

Lemma rank_sum_tie_free (table : list ValueSetPair) :
  (Z.of_nat (length table) <= CInt.INT_MAX)%Z ->
  no_adjacent_ties table ->
  rank_sum (Z.of_nat (length table)) (Z.of_nat (count_set1 table)) table
  = IZR (set2_before 0 table).
Proof.
  intros Hmax Hties. unfold rank_sum. rewrite Nat2Z.id.
  pose proof (scan_without_ties table (Z.of_nat (length table))
                (Z.of_nat (count_set1 table)) table [] (length table) 0%R 0%Z
                eq_refl eq_refl eq_refl Hmax Hties (le_n _)) as H.
  cbn [length count_set1 filter] in H. cbn [Z.of_nat Z.sub] in H.
  rewrite H. change (0 - 0)%Z with 0%Z. ring.
Qed.

Lemma set2_before_bounds t : forall seen,
  (0 <= seen)%Z ->
  (0 <= set2_before seen t
   <= Z.of_nat (count_set1 t) * (seen + Z.of_nat (length t - count_set1 t)))%Z.
Proof.
  induction t as [|e t IH]; intros seen Hs; cbn [set2_before].
  - unfold count_set1. cbn. lia.
  - pose proof (count_set1_le t) as Hle.
    unfold count_set1 in *. cbn [filter length].
    destruct (vsp_set e); cbn [negb length].
    + specialize (IH (seen + 1)%Z ltac:(lia)).
      replace (S (length t) - length (filter (fun e0 => negb (vsp_set e0)) t))%nat
        with (S (length t - length (filter (fun e0 => negb (vsp_set e0)) t)))%nat by lia.
      nia.
    + specialize (IH seen Hs).
      replace (S (length t) - S (length (filter (fun e0 => negb (vsp_set e0)) t)))%nat
        with (length t - length (filter (fun e0 => negb (vsp_set e0)) t))%nat by lia.
      nia.
Qed.

(** The tie counters of a scan over a table without ties: whatever the
    number of rounds of the loop, [ties] is at zero and [previousTies] is
    what it was. *)
Lemma scan_without_ties_counters table total group1 suf : forall pre steps u pt,
  table = pre ++ suf ->
  total = Z.of_nat (length table) ->
  group1 = Z.of_nat (count_set1 table) ->
  (total <= CInt.INT_MAX)%Z ->
  no_adjacent_ties suf ->
  ties (scan total group1 table steps (Z.of_nat (length pre))
          {| U1 := u; prev := Z.of_nat (count_set1 pre); ties := 0; previousTies := pt |})
  = 0%Z /\
  previousTies
    (scan total group1 table steps (Z.of_nat (length pre))
       {| U1 := u; prev := Z.of_nat (count_set1 pre); ties := 0; previousTies := pt |})
  = pt.
Proof.
  induction suf as [|e suf IH]; intros pre steps u pt Htable Htotal Hgroup Hmax Hties.
  - destruct steps as [|steps]; [split; reflexivity|].
    cbn [scan]. rewrite app_nil_r in Htable. subst table total.
    rewrite Z.ltb_irrefl. split; reflexivity.
  - destruct steps as [|steps]; [split; reflexivity|].
    cbn [scan prev].
    pose proof (count_set1_le pre) as Hple.
    assert (Hlen : length table = S (length pre + length suf))
      by (rewrite Htable, length_app; cbn [length]; lia).
    destruct (Z.ltb_spec (Z.of_nat (length pre)) total) as [_|Hge]; [|lia].
    cbn [andb].
    assert (Happ : table = (pre ++ [e]) ++ suf)
      by (rewrite <- app_assoc; exact Htable).
    assert (Hadd : CInt.add (Z.of_nat (length pre)) 1 = Z.of_nat (length (pre ++ [e]))).
    { unfold CInt.add. rewrite int_small by lia.
      rewrite length_app. cbn [length]. lia. }
    pose proof (no_adjacent_ties_tail e suf Hties) as Htail.
    destruct (Z.ltb_spec (Z.of_nat (count_set1 pre)) group1) as [Hlt|Hge];
      [|split; reflexivity].
    rewrite (entry_middle table pre e suf Htable).
    destruct (vsp_set e) eqn:Hset; cbn [negb].
    + rewrite Hadd.
      assert (Hp : count_set1 pre = count_set1 (pre ++ [e]))
        by (rewrite count_set1_snoc, Hset; lia).
      rewrite Hp.
      exact (IH (pre ++ [e]) steps u pt Happ Htotal Hgroup Hmax Htail).
    + unfold scan_set1. cbn [ties U1 prev previousTies Z.eqb negb].
      rewrite (entry_middle table pre e suf Htable).
      rewrite (look_next_no_tie table total pre e suf _ Htable Htotal Hmax Hties).
      cbn [Z.eqb negb].
      assert (Hp : CInt.add (Z.of_nat (count_set1 pre)) 1
                   = Z.of_nat (count_set1 (pre ++ [e]))).
      { unfold CInt.add. rewrite int_small by lia.
        rewrite count_set1_snoc, Hset. lia. }
      rewrite Hp, Hadd.
      exact (IH (pre ++ [e]) steps _ pt Happ Htotal Hgroup Hmax Htail).
Qed.

(** X10. On a table in which no entry has the value of its neighbour, the
    scan of lines 242 to 273 adds up, for every entry of set 1, the number of
    entries of set 2 that come before it; the sum lies between 0 and the
    number of pairs of an entry of set 1 and one of set 2, and the two tie
    counters are at zero after any number of rounds of the loop. *)
Theorem rank_sum_without_ties (table : list ValueSetPair) :
  (Z.of_nat (length table) <= CInt.INT_MAX)%Z ->
  no_adjacent_ties table ->
  rank_sum (Z.of_nat (length table)) (Z.of_nat (count_set1 table)) table
  = IZR (set2_before 0 table) /\
  (0 <= set2_before 0 table
   <= Z.of_nat (count_set1 table) * Z.of_nat (length table - count_set1 table))%Z /\
  (forall rounds : nat,
     ties (scan (Z.of_nat (length table)) (Z.of_nat (count_set1 table)) table rounds 0
             {| U1 := 0; prev := 0; ties := 0; previousTies := 0 |}) = 0%Z /\
     previousTies
       (scan (Z.of_nat (length table)) (Z.of_nat (count_set1 table)) table rounds 0
          {| U1 := 0; prev := 0; ties := 0; previousTies := 0 |}) = 0%Z).
Proof.
  intros Hmax Hties. split; [apply rank_sum_tie_free; assumption|]. split.
  - pose proof (set2_before_bounds table 0 ltac:(lia)) as H. lia.
  - intros rounds.
    exact (scan_without_ties_counters table (Z.of_nat (length table))
             (Z.of_nat (count_set1 table)) table [] rounds 0%R 0%Z
             eq_refl eq_refl eq_refl Hmax Hties).
Qed.

Lemma rank_sum_without_ties_witness :
  rank_sum (Z.of_nat (length [of_set2 1%R; of_set1 2%R; of_set2 3%R; of_set1 4%R]))
    (Z.of_nat (count_set1 [of_set2 1%R; of_set1 2%R; of_set2 3%R; of_set1 4%R]))
    [of_set2 1%R; of_set1 2%R; of_set2 3%R; of_set1 4%R]
  = IZR (set2_before 0 [of_set2 1%R; of_set1 2%R; of_set2 3%R; of_set1 4%R]) /\
  (0 <= set2_before 0 [of_set2 1%R; of_set1 2%R; of_set2 3%R; of_set1 4%R]
   <= Z.of_nat (count_set1 [of_set2 1%R; of_set1 2%R; of_set2 3%R; of_set1 4%R])
      * Z.of_nat (length [of_set2 1%R; of_set1 2%R; of_set2 3%R; of_set1 4%R]
                  - count_set1 [of_set2 1%R; of_set1 2%R; of_set2 3%R; of_set1 4%R]))%Z /\
  (forall rounds : nat,
     ties (scan (Z.of_nat (length [of_set2 1%R; of_set1 2%R; of_set2 3%R; of_set1 4%R]))
             (Z.of_nat (count_set1 [of_set2 1%R; of_set1 2%R; of_set2 3%R; of_set1 4%R]))
             [of_set2 1%R; of_set1 2%R; of_set2 3%R; of_set1 4%R] rounds 0
             {| U1 := 0; prev := 0; ties := 0; previousTies := 0 |}) = 0%Z /\
     previousTies
       (scan (Z.of_nat (length [of_set2 1%R; of_set1 2%R; of_set2 3%R; of_set1 4%R]))
          (Z.of_nat (count_set1 [of_set2 1%R; of_set1 2%R; of_set2 3%R; of_set1 4%R]))
          [of_set2 1%R; of_set1 2%R; of_set2 3%R; of_set1 4%R] rounds 0
          {| U1 := 0; prev := 0; ties := 0; previousTies := 0 |}) = 0%Z).
Proof.
  apply (rank_sum_without_ties [of_set2 1%R; of_set1 2%R; of_set2 3%R; of_set1 4%R]).
  - unfold CInt.INT_MAX. simpl. lia.
  - cbn. repeat split; lra.
Defined.

(** ** Without ties the rank sum is the Mann-Whitney statistic *)

Lemma filter_length_perm {A : Type} (f : A -> bool) (l l' : list A) :
  Permutation l l' -> length (filter f l) = length (filter f l').
Proof.
  induction 1 as [|x l l' _ IH|x y l|l l' l'' _ IH1 _ IH2]; cbn [filter].
  - reflexivity.
  - destruct (f x); cbn [length]; lia.
  - destruct (f x), (f y); reflexivity.
  - lia.
Qed.

Lemma list_sum_map_perm {A : Type} (f : A -> nat) (l l' : list A) :
  Permutation l l' -> list_sum (map f l) = list_sum (map f l').
Proof.
  induction 1 as [|x l l' _ IH|x y l|l l' l'' _ IH1 _ IH2]; cbn [map list_sum fold_right].
  - reflexivity.
  - unfold list_sum in *. lia.
  - lia.
  - lia.
Qed.

Lemma crossings_perm (t t' : list ValueSetPair) :
  Permutation t t' -> crossings t = crossings t'.
Proof.
  intros Hp. unfold crossings.
  rewrite (list_sum_map_perm _ t t' Hp).
  f_equal. apply map_ext. intros e. destruct (vsp_set e); [reflexivity|].
  unfold set2_below. apply filter_length_perm. exact Hp.
Qed.

Lemma compare_le (a b : ValueSetPair) :
  (compareValueSetPairs a b <= 0)%Z -> (vsp_value a <= vsp_value b)%R.
Proof.
  unfold compareValueSetPairs, Double.gtb, Double.ltb.
  destruct (Rlt_dec (vsp_value a) (vsp_value b)); [lra|].
  destruct (Rlt_dec (vsp_value b) (vsp_value a)); [lia | lra].
Qed.

Lemma in_order_ascending (t : list ValueSetPair) :
  in_order t -> NoDup (map vsp_value t) -> ascending t.
Proof.
  induction t as [|e t IH]; intros Ho Hn; [constructor|].
  cbn [map] in Hn. apply NoDup_cons_iff in Hn as [Hnotin Hn].
  destruct t as [|e' t]; [constructor; constructor|].
  destruct Ho as [Hle Ho]. specialize (IH Ho Hn).
  constructor; [exact IH|].
  apply compare_le in Hle.
  assert (Hlt : (vsp_value e < vsp_value e')%R).
  { destruct (Req_dec (vsp_value e) (vsp_value e')) as [E|Ne]; [|lra].
    exfalso. apply Hnotin. cbn [map]. left. symmetry. exact E. }
  constructor; [exact Hlt|].
  apply StronglySorted_inv in IH as [_ Hall].
  eapply Forall_impl; [|exact Hall]. cbn. intros b Hb. lra.
Qed.

Lemma ascending_no_adjacent_ties (t : list ValueSetPair) :
  ascending t -> no_adjacent_ties t.
Proof.
  induction t as [|e t IH]; intros Ha; [exact I|].
  apply StronglySorted_inv in Ha as [Ht Hall].
  destruct t as [|e' t]; [exact I|].
  split; [|apply IH; exact Ht].
  apply Forall_inv in Hall. lra.
Qed.

Lemma set2_before_linear t : forall seen,
  set2_before seen t = (seen * Z.of_nat (count_set1 t) + set2_before 0 t)%Z.
Proof.
  induction t as [|e t IH]; intros seen; cbn [set2_before]; [unfold count_set1; cbn; lia|].
  unfold count_set1. cbn [filter].
  destruct (vsp_set e); cbn [negb length].
  - rewrite (IH (seen + 1)%Z), (IH (0 + 1)%Z). fold (count_set1 t). lia.
  - rewrite (IH seen). fold (count_set1 t). lia.
Qed.

Lemma set2_below_above (v : R) (t : list ValueSetPair) :
  Forall (fun b => (v <= vsp_value b)%R) t -> set2_below v t = 0%nat.
Proof.
  unfold set2_below. induction 1 as [|b t Hb _ IH]; [reflexivity|].
  cbn [filter]. rewrite (ltb_false (vsp_value b) v Hb), andb_false_r. exact IH.
Qed.

Lemma set2_below_cons (v : R) (e : ValueSetPair) (t : list ValueSetPair) :
  (vsp_value e < v)%R ->
  set2_below v (e :: t) = ((if vsp_set e then 1 else 0) + set2_below v t)%nat.
Proof.
  intros Hlt. unfold set2_below. cbn [filter].
  rewrite (ltb_true (vsp_value e) v Hlt), andb_true_r.
  destruct (vsp_set e); reflexivity.
Qed.

Lemma list_sum_cons (x : nat) (l : list nat) : list_sum (x :: l) = (x + list_sum l)%nat.
Proof. reflexivity. Qed.

Lemma crossings_over (e : ValueSetPair) (T l : list ValueSetPair) :
  Forall (fun b => (vsp_value e < vsp_value b)%R) l ->
  list_sum (map (fun e1 => if vsp_set e1 then 0%nat
                           else set2_below (vsp_value e1) (e :: T)) l)
  = (list_sum (map (fun e1 => if vsp_set e1 then 0%nat
                              else set2_below (vsp_value e1) T) l)
     + (if vsp_set e then count_set1 l else 0))%nat.
Proof.
  induction 1 as [|b l Hb _ IH].
  - cbn. destruct (vsp_set e); reflexivity.
  - cbn [map]. rewrite !list_sum_cons, IH.
    unfold count_set1. cbn [filter].
    destruct (vsp_set b) eqn:Hsb; cbn [negb length].
    + lia.
    + rewrite (set2_below_cons (vsp_value b) e T Hb).
      destruct (vsp_set e); lia.
Qed.

Lemma crossings_cons (e : ValueSetPair) (t : list ValueSetPair) :
  Forall (fun b => (vsp_value e < vsp_value b)%R) t ->
  crossings (e :: t)
  = (crossings t + (if vsp_set e then count_set1 t else 0))%nat.
Proof.
  intros Hall. unfold crossings. cbn [map]. rewrite list_sum_cons.
  assert (He : (if vsp_set e then 0%nat else set2_below (vsp_value e) (e :: t)) = 0%nat).
  { destruct (vsp_set e) eqn:Hset; [reflexivity|].
    unfold set2_below. cbn [filter]. rewrite Hset. cbn [andb].
    apply (set2_below_above (vsp_value e) t).
    eapply Forall_impl; [|exact Hall]. cbn. intros; lra. }
  rewrite He, (crossings_over e t t Hall). reflexivity.
Qed.

(** Along a table whose values go up, the entries of set 2 before an entry
    of set 1 are those of a smaller value. *)
Lemma set2_before_crossings (t : list ValueSetPair) :
  ascending t -> set2_before 0 t = Z.of_nat (crossings t).
Proof.
  induction t as [|e t IH]; intros Ha; [reflexivity|].
  apply StronglySorted_inv in Ha as [Ht Hall].
  rewrite (crossings_cons e t Hall). cbn [set2_before].
  destruct (vsp_set e).
  - rewrite set2_before_linear, (IH Ht). lia.
  - rewrite (IH Ht). lia.
Qed.

Lemma populate_tagged n inplay values tag :
  populate n inplay values tag
  = map (fun x => {| vsp_value := x; vsp_set := tag |}) (substituted n inplay values).
Proof. unfold substituted, populate. rewrite !map_map. reflexivity. Qed.

Lemma list_sum_zeros {A : Type} (l : list A) : list_sum (map (fun _ => 0%nat) l) = 0%nat.
Proof. induction l as [|x l IH]; [reflexivity|]. cbn [map]. rewrite list_sum_cons, IH. reflexivity. Qed.

Lemma set2_below_tagged v xs ys :
  set2_below v (map (fun x => {| vsp_value := x; vsp_set := false |}) xs
                ++ map (fun y => {| vsp_value := y; vsp_set := true |}) ys)
  = length (filter (fun y => Double.ltb y v) ys).
Proof.
  unfold set2_below. rewrite filter_app, length_app.
  assert (H1 : filter (fun e => vsp_set e && Double.ltb (vsp_value e) v)
                 (map (fun x => {| vsp_value := x; vsp_set := false |}) xs) = []).
  { induction xs as [|x xs IH]; [reflexivity|]. cbn [map filter vsp_set andb]. exact IH. }
  rewrite H1. cbn [length Nat.add].
  induction ys as [|y ys IH]; [reflexivity|].
  cbn [map filter vsp_set vsp_value andb].
  destruct (Double.ltb y v); cbn [length]; rewrite IH; reflexivity.
Qed.

Lemma crossings_tagged xs ys :
  crossings (map (fun x => {| vsp_value := x; vsp_set := false |}) xs
             ++ map (fun y => {| vsp_value := y; vsp_set := true |}) ys)
  = pairs_above xs ys.
Proof.
  unfold crossings, pairs_above.
  set (T := map _ xs ++ map _ ys).
  unfold T at 2. rewrite map_app, list_sum_app, !map_map. cbn [vsp_set vsp_value].
  rewrite list_sum_zeros, Nat.add_0_r.
  f_equal. apply map_ext. intros x. apply set2_below_tagged.
Qed.

Lemma count_set1_tagged xs ys :
  count_set1 (map (fun x => {| vsp_value := x; vsp_set := false |}) xs
              ++ map (fun y => {| vsp_value := y; vsp_set := true |}) ys)
  = length xs.
Proof.
  rewrite count_set1_app. unfold count_set1.
  assert (H1 : forall l, length (filter (fun e => negb (vsp_set e))
                 (map (fun x => {| vsp_value := x; vsp_set := false |}) l)) = length l).
  { induction l as [|x l IH]; [reflexivity|]. cbn. rewrite IH. reflexivity. }
  assert (H2 : forall l, length (filter (fun e => negb (vsp_set e))
                 (map (fun y => {| vsp_value := y; vsp_set := true |}) l)) = 0%nat).
  { induction l as [|x l IH]; [reflexivity|]. cbn. exact IH. }
  rewrite H1, H2. lia.
Qed.

(** X11. When the values the table holds for a window are all different
    (replicates out of play count as 0) and [qsort] hands back a
    rearrangement of the table that is in order for [compareValueSetPairs],
    the rank sum is the Mann-Whitney statistic: the number of pairs of a
    value of the first group and a smaller value of the second. *)
Theorem MWU_rank_sum_is_U_statistic
    (qsort : (ValueSetPair -> ValueSetPair -> Z) -> list ValueSetPair -> list ValueSetPair)
    (d : MWUData) (w : Window) :
  let xs := substituted (n1 d) (w_multis_inplay0 w) (w_values0 w) in
  let ys := substituted (n2 d) (w_multis_inplay1 w) (w_values1 w) in
  let filled := populate (n1 d) (w_multis_inplay0 w) (w_values0 w) false
                ++ populate (n2 d) (w_multis_inplay1 w) (w_values1 w) true in
  (0 <= n1 d)%Z -> (0 <= n2 d)%Z -> N d = (n1 d + n2 d)%Z ->
  (N d <= CInt.INT_MAX)%Z ->
  NoDup (xs ++ ys) ->
  Permutation filled (qsort compareValueSetPairs filled) ->
  in_order (qsort compareValueSetPairs filled) ->
  rank_sum (N d) (n1 d) (mwu_table qsort d w) = INR (pairs_above xs ys).
Proof.
  intros xs ys filled H1 H2 HN Hmax Hnd Hperm Hord.
  assert (Hfilled : filled
                    = map (fun x => {| vsp_value := x; vsp_set := false |}) xs
                      ++ map (fun y => {| vsp_value := y; vsp_set := true |}) ys).
  { unfold filled. rewrite !populate_tagged. reflexivity. }
  assert (Hlen : length filled = Z.to_nat (N d)).
  { rewrite Hfilled, length_app, !length_map. unfold xs, ys.
    rewrite !substituted_length, HN. lia. }
  assert (Htable : mwu_table qsort d w = qsort compareValueSetPairs filled).
  { unfold mwu_table. fold filled. rewrite <- Hlen, firstn_all, skipn_all.
    apply app_nil_r. }
  rewrite Htable. set (T := qsort compareValueSetPairs filled) in *.
  assert (HlenT : Z.of_nat (length T) = N d)
    by (rewrite <- (Permutation_length Hperm), Hlen; lia).
  assert (HcntT : Z.of_nat (count_set1 T) = n1 d).
  { unfold count_set1. rewrite <- (filter_length_perm _ filled T Hperm).
    fold (count_set1 filled). rewrite Hfilled, count_set1_tagged. unfold xs.
    rewrite substituted_length. lia. }
  assert (HndT : NoDup (map vsp_value T)).
  { apply (Permutation_NoDup (l := map vsp_value filled)).
    - apply Permutation_map. exact Hperm.
    - rewrite Hfilled, map_app, !map_map. cbn [vsp_value]. rewrite !map_id. exact Hnd. }
  pose proof (in_order_ascending T Hord HndT) as Hasc.
  rewrite <- HlenT, <- HcntT.
  rewrite rank_sum_tie_free
    by (try rewrite HlenT; try assumption; apply ascending_no_adjacent_ties; exact Hasc).
  rewrite (set2_before_crossings T Hasc), <- INR_IZR_INZ.
  rewrite <- (crossings_perm filled T Hperm), Hfilled, crossings_tagged. reflexivity.
Qed.

Lemma MWU_rank_sum_is_U_statistic_witness :
  let d := data (mwu_iterator 2 2 []) in
  let w := ranked_window in
  let xs := substituted (n1 d) (w_multis_inplay0 w) (w_values0 w) in
  let ys := substituted (n2 d) (w_multis_inplay1 w) (w_values1 w) in
  rank_sum (N d) (n1 d) (mwu_table qsort_keep d w) = INR (pairs_above xs ys).
Proof.
  apply (MWU_rank_sum_is_U_statistic qsort_keep (data (mwu_iterator 2 2 [])) ranked_window).
  - simpl. lia.
  - simpl. lia.
  - reflexivity.
  - vm_compute. discriminate.
  - change (NoDup [1; 2; 3; 4]%R).
    repeat constructor; cbn; intros H; decompose [or] H; lra.
  - apply Permutation_refl.
  - change (in_order [of_set1 1%R; of_set1 2%R; of_set2 3%R; of_set2 4%R]).
    cbn. unfold compareValueSetPairs. cbn [vsp_value of_set1 of_set2].
    rewrite !ltb_true by lra. repeat split; lia.
Defined.

(** X12. The records a consumer reads off a Mann-Whitney reducer built with
    the normal approximation are those of the windows with both group flags
    up, in the order of the input, each with the value of lines 275 to 280
    at the rank sum of that window alone: neither the table nor the value
    left by an earlier window has a part in it. *)
Theorem MWUReduction_stream
    (erf : R -> R)
    (qsort : (ValueSetPair -> ValueSetPair -> Z) -> list ValueSetPair -> list ValueSetPair)
    (fuel n : nat) (wi : WiggleIterator MWUData) :
  done wi = false ->
  normalApproximation (data wi) = true ->
  (length (windows (mwu_multi (data wi))) < n)%nat ->
  pulls (MWUReductionPop erf qsort (S fuel)) n wi
  = map (mwu_record erf qsort (data wi))
      (filter qualifying (windows (mwu_multi (data wi)))).
Proof. intros Hd Hna Hn. apply pulls_MWUReduction_records; assumption. Qed.

Lemma MWUReduction_stream_witness :
  pulls (MWUReductionPop erf_stub qsort_keep 1) 3
    (mwu_iterator 2 2 [ranked_window; constant_window])
  = map (mwu_record erf_stub qsort_keep
           (data (mwu_iterator 2 2 [ranked_window; constant_window])))
      (filter qualifying
         (windows (mwu_multi (data (mwu_iterator 2 2 [ranked_window; constant_window]))))).
Proof.
  apply (MWUReduction_stream erf_stub qsort_keep 0 3
           (mwu_iterator 2 2 [ranked_window; constant_window])).
  - reflexivity.
  - reflexivity.
  - simpl. lia.
Defined.

(** ** Seeking *)

(** X13. [SetComparisonSeek] repositions the synchroniser and pulls once.
    What a consumer then reads, the record the iterator stands on and those
    of the pulls that follow, are the records of the T-test over the
    repositioned synchroniser: nothing of the place the iterator had before
    is left. *)
Theorem SetComparisonSeek_replays
    (seekMultiset : Multiset -> string -> Z -> Z -> Multiset)
    (Q : R -> R -> R) (indet : WiggleIterator SetComparisonData -> bool)
    (fuel n : nat) (iter : WiggleIterator SetComparisonData)
    (chrom : string) (start finish : Z) :
  done iter = false ->
  (length (windows (seekMultiset (multi (data iter)) chrom start finish)) <= n)%nat ->
  (2 * length (windows (seekMultiset (multi (data iter)) chrom start finish)) + 2
   <= fuel)%nat ->
  exists wi',
    SetComparisonSeek seekMultiset Q indet fuel iter chrom start finish = Some wi' /\
    (if done wi' then []
     else current wi' :: pulls (TTestReductionPop Q indet fuel) n wi')
    = ttest_stream Q
        (multis_count0 (seekMultiset (multi (data iter)) chrom start finish))
        (multis_count1 (seekMultiset (multi (data iter)) chrom start finish))
        (windows (seekMultiset (multi (data iter)) chrom start finish)).
Proof.
  intros Hd Hn Hf. set (m' := seekMultiset (multi (data iter)) chrom start finish) in *.
  set (wi0 := set_data iter {| multi := m' |}).
  assert (Hd0 : done wi0 = false) by exact Hd.
  assert (Hdata : data wi0 = {| multi := with_windows m' (windows m') |})
    by (unfold wi0; destruct m'; reflexivity).
  pose proof (pulls_TTestReduction Q indet (S n) fuel wi0 m' (windows m') Hd0 Hdata
                ltac:(lia) Hf) as Hp.
  destruct (TTestReductionPop_total Q indet fuel wi0 Hf) as [wi' Hpop].
  exists wi'. unfold SetComparisonSeek. fold m' wi0.
  cbn [pulls] in Hp. unfold pop in *. rewrite Hd0 in *. rewrite Hpop in *.
  split; [reflexivity | exact Hp].
Qed.

Lemma SetComparisonSeek_replays_witness :
  exists wi',
    SetComparisonSeek (fun m _ _ _ => with_windows m [partial_window]) tail_stub reads_false
      4 (ttest_iterator 2 2 []) "chr1" 100 200 = Some wi' /\
    (if done wi' then []
     else current wi' :: pulls (TTestReductionPop tail_stub reads_false 4) 1 wi')
    = ttest_stream tail_stub
        (multis_count0 (with_windows (multi (data (ttest_iterator 2 2 []))) [partial_window]))
        (multis_count1 (with_windows (multi (data (ttest_iterator 2 2 []))) [partial_window]))
        (windows (with_windows (multi (data (ttest_iterator 2 2 []))) [partial_window])).
Proof.
  apply (SetComparisonSeek_replays (fun m _ _ _ => with_windows m [partial_window])
           tail_stub reads_false 4 1 (ttest_iterator 2 2 []) "chr1" 100 200).
  - reflexivity.
  - simpl. lia.
  - simpl. lia.
Defined.

(** X14. [MWUSeek] repositions the synchroniser and pulls once.  What a
    consumer then reads, the record the iterator stands on and those of the
    pulls that follow, are the records of the Mann-Whitney reducer over the
    repositioned synchroniser. *)
Theorem MWUSeek_replays
    (seekMultiset : Multiset -> string -> Z -> Z -> Multiset)
    (erf : R -> R)
    (qsort : (ValueSetPair -> ValueSetPair -> Z) -> list ValueSetPair -> list ValueSetPair)
    (fuel n : nat) (iter : WiggleIterator MWUData)
    (chrom : string) (start finish : Z) :
  done iter = false ->
  normalApproximation (data iter) = true ->
  (length (windows (seekMultiset (mwu_multi (data iter)) chrom start finish)) <= n)%nat ->
  exists wi',
    MWUSeek seekMultiset erf qsort (S fuel) iter chrom start finish = Some wi' /\
    (if done wi' then []
     else current wi' :: pulls (MWUReductionPop erf qsort (S fuel)) n wi')
    = map (mwu_record erf qsort (data iter))
        (filter qualifying
           (windows (seekMultiset (mwu_multi (data iter)) chrom start finish))).
Proof.
  intros Hd Hna Hn.
  set (m' := seekMultiset (mwu_multi (data iter)) chrom start finish) in *.
  set (wi0 := set_data iter (mwu_update (data iter) m' (rankingTable (data iter)))).
  assert (Hd0 : done wi0 = false) by exact Hd.
  pose proof (pulls_MWUReduction_records erf qsort (S n) fuel wi0 Hd0 Hna
                ltac:(cbn; lia)) as Hp.
  exists (snd (MWUReductionPop2 erf qsort wi0)).
  unfold MWUSeek. fold m' wi0.
  cbn [pulls] in Hp. unfold pop in *. rewrite Hd0 in *.
  rewrite (MWUReductionPop_once erf qsort fuel wi0 Hd0) in *.
  split; [reflexivity | exact Hp].
Qed.

Lemma MWUSeek_replays_witness :
  exists wi',
    MWUSeek (fun m _ _ _ => with_windows m [ranked_window]) erf_stub qsort_keep 1
      (mwu_iterator 2 2 []) "chr1" 100 200 = Some wi' /\
    (if done wi' then []
     else current wi' :: pulls (MWUReductionPop erf_stub qsort_keep 1) 1 wi')
    = map (mwu_record erf_stub qsort_keep (data (mwu_iterator 2 2 [])))
        (filter qualifying
           (windows (with_windows (mwu_multi (data (mwu_iterator 2 2 []))) [ranked_window]))).
Proof.
  apply (MWUSeek_replays (fun m _ _ _ => with_windows m [ranked_window])
           erf_stub qsort_keep 0 1 (mwu_iterator 2 2 []) "chr1" 100 200).
  - reflexivity.
  - reflexivity.
  - simpl. lia.
Defined.
